(** * mididings: the JACK backend (src/backend_jack.cc)

    A shallow embedding of [BackendJack]: the wire codec
    ([jack_to_midi_event], [midi_event_to_jack]), the process callback,
    the constructor and the application-facing operations, followed by
    the properties of the specification that concern them.

    Conventions.
    - C++ [int] values are integers in [Z].  The only arithmetic the
      backend does on them is [value + 8192], [%], [/], [<<], [|], [&].
      The sum is taken in [Z]: it is the sum of the code as long as
      [value + 8192] is at most [INT_MAX], and beyond that the C++
      addition overflows, which is undefined ([pitchbend_sum_fits]).
    - [unsigned char] / [jack_midi_data_t] values are integers in [Z]
      between 0 and 255; a store into one reduces modulo 256
      ([to_uchar]).
    - A byte buffer is a [list Z]; [data !! i] reads [data[i]] and is
      [None] outside the buffer, where the C++ read is undefined.
    - Pointers handed out by the JACK library are integers, [NULL] is 0. *)

From Stdlib Require Import ZArith Lia.
From stdpp Require Import base option list strings.

Local Open Scope Z_scope.

(** ** midi_event.hh (declarations used by the backend) *)

(** Modelled from the spec: the header midi_event.hh with the declaration
    of [MidiEventType] is not part of the sources at hand; the
    enumerators are the ones backend_jack.cc names, which are the six
    variants of the data model. *)
Inductive MidiEventType : Set :=
  | MIDI_EVENT_NONE
  | MIDI_EVENT_NOTEON
  | MIDI_EVENT_NOTEOFF
  | MIDI_EVENT_CTRL
  | MIDI_EVENT_PITCHBEND
  | MIDI_EVENT_PROGRAM.

Global Instance MidiEventType_eq_dec : EqDecision MidiEventType.
Proof. solve_decision. Defined.

(** Modelled from the spec: the declaration of [MidiEvent] is in
    midi_event.hh as well.  The backend accesses [ev.type], [ev.port],
    [ev.channel], [ev.note.note], [ev.note.velocity], [ev.ctrl.param] and
    [ev.ctrl.value]; the payload "shape depends on type", that is
    [note] and [ctrl] are two views of the same two words:
    [data1] is [note.note] and [ctrl.param], [data2] is [note.velocity]
    and [ctrl.value]. *)
Record MidiEvent : Set := mkMidiEvent {
  type : MidiEventType;
  port : Z;
  channel : Z;
  data1 : Z;
  data2 : Z
}.

Global Instance MidiEvent_eq_dec : EqDecision MidiEvent.
Proof. solve_decision. Defined.

Definition note_note (ev : MidiEvent) : Z := data1 ev.
Definition note_velocity (ev : MidiEvent) : Z := data2 ev.
Definition ctrl_param (ev : MidiEvent) : Z := data1 ev.
Definition ctrl_value (ev : MidiEvent) : Z := data2 ev.

(** Field assignments [ev.f = x]. *)
Definition set_type (ev : MidiEvent) (t : MidiEventType) : MidiEvent :=
  mkMidiEvent t (port ev) (channel ev) (data1 ev) (data2 ev).
Definition set_port (ev : MidiEvent) (p : Z) : MidiEvent :=
  mkMidiEvent (type ev) p (channel ev) (data1 ev) (data2 ev).
Definition set_channel (ev : MidiEvent) (c : Z) : MidiEvent :=
  mkMidiEvent (type ev) (port ev) c (data1 ev) (data2 ev).
Definition set_data1 (ev : MidiEvent) (x : Z) : MidiEvent :=
  mkMidiEvent (type ev) (port ev) (channel ev) x (data2 ev).
Definition set_data2 (ev : MidiEvent) (x : Z) : MidiEvent :=
  mkMidiEvent (type ev) (port ev) (channel ev) (data1 ev) x.

Definition set_note_note := set_data1.
Definition set_note_velocity := set_data2.
Definition set_ctrl_param := set_data1.
Definition set_ctrl_value := set_data2.

(** The documented ranges of the data model: channel 0..15; note,
    velocity, controller number, controller value and program number
    0..127; pitch bend -8192..8191.  The parameter word of a pitch bend
    is "fixed 0"; that of a program change is unused and is 0 in every
    event the decoder builds. *)
Definition in_7bit (x : Z) : bool := (0 <=? x) && (x <=? 127).
Definition in_channel (x : Z) : bool := (0 <=? x) && (x <=? 15).
Definition in_pitchbend (x : Z) : bool := (-8192 <=? x) && (x <=? 8191).

Definition payload_in_range (ev : MidiEvent) : bool :=
  match type ev with
  | MIDI_EVENT_NOTEON | MIDI_EVENT_NOTEOFF =>
      in_7bit (note_note ev) && in_7bit (note_velocity ev)
  | MIDI_EVENT_CTRL =>
      in_7bit (ctrl_param ev) && in_7bit (ctrl_value ev)
  | MIDI_EVENT_PITCHBEND =>
      (ctrl_param ev =? 0) && in_pitchbend (ctrl_value ev)
  | MIDI_EVENT_PROGRAM =>
      (ctrl_param ev =? 0) && in_7bit (ctrl_value ev)
  | MIDI_EVENT_NONE => true
  end.

Definition in_range (ev : MidiEvent) : bool :=
  in_channel (channel ev) && payload_in_range ev.

(** The same ranges without the condition on the unused parameter word,
    and the event with that word set to 0. *)
Definition used_in_range (ev : MidiEvent) : bool :=
  in_channel (channel ev) &&
  match type ev with
  | MIDI_EVENT_NOTEON | MIDI_EVENT_NOTEOFF =>
      in_7bit (note_note ev) && in_7bit (note_velocity ev)
  | MIDI_EVENT_CTRL =>
      in_7bit (ctrl_param ev) && in_7bit (ctrl_value ev)
  | MIDI_EVENT_PITCHBEND => in_pitchbend (ctrl_value ev)
  | MIDI_EVENT_PROGRAM => in_7bit (ctrl_value ev)
  | MIDI_EVENT_NONE => true
  end.

Definition clear_unused (ev : MidiEvent) : MidiEvent :=
  match type ev with
  | MIDI_EVENT_PITCHBEND | MIDI_EVENT_PROGRAM => set_ctrl_param ev 0
  | _ => ev
  end.

(** The variants that have a wire encoding. *)
Definition representable (t : MidiEventType) : bool :=
  match t with
  | MIDI_EVENT_NONE => false
  | _ => true
  end.

(** ** jack/midiport.h *)

(** [jack_midi_event_t]: a time stamp, the number of bytes and the bytes. *)
Record jack_midi_event_t : Set := mk_jack_midi_event {
  time : Z;
  size : nat;
  buffer : list Z
}.

Definition is_uchar (b : Z) : Prop := 0 <= b <= 255.

(** Conversion of an [int] to [unsigned char]. *)
Definition to_uchar (x : Z) : Z := x mod 256.

(** The largest [int], and the condition under which the sum
    [ev.ctrl.value + 8192] of the pitch-bend branch of the encoder does
    not overflow. *)
Definition INT_MAX : Z := 2147483647.

Definition pitchbend_sum_fits (ev : MidiEvent) : Prop :=
  type ev = MIDI_EVENT_PITCHBEND -> ctrl_value ev + 8192 <= INT_MAX.

(** ** The wire codec *)

(** [BackendJack::jack_to_midi_event].  [ev0] is the default-constructed
    [MidiEvent ev;] the function starts from (its constructor is in
    midi_event.hh); every field the function does not assign keeps the
    value it has in [ev0]. *)
Definition jack_to_midi_event (ev0 : MidiEvent) (jack_ev : jack_midi_event_t)
    (port : Z) : option MidiEvent :=
  let data := buffer jack_ev in
  let ev := set_port ev0 port in
  d0 ← data !! 0%nat;
  let ev := set_channel ev (Z.land d0 0x0f) in
  let status := Z.land d0 0xf0 in
  if status =? 0x90 then
    let ev := set_type ev MIDI_EVENT_NOTEON in
    d1 ← data !! 1%nat;
    let ev := set_note_note ev d1 in
    d2 ← data !! 2%nat;
    Some (set_note_velocity ev d2)
  else if status =? 0x80 then
    let ev := set_type ev MIDI_EVENT_NOTEOFF in
    d1 ← data !! 1%nat;
    let ev := set_note_note ev d1 in
    d2 ← data !! 2%nat;
    Some (set_note_velocity ev d2)
  else if status =? 0xb0 then
    let ev := set_type ev MIDI_EVENT_CTRL in
    d1 ← data !! 1%nat;
    let ev := set_ctrl_param ev d1 in
    d2 ← data !! 2%nat;
    Some (set_ctrl_value ev d2)
  else if status =? 0xe0 then
    let ev := set_type ev MIDI_EVENT_PITCHBEND in
    let ev := set_ctrl_param ev 0 in
    d2 ← data !! 2%nat;
    d1 ← data !! 1%nat;
    Some (set_ctrl_value ev (Z.lor (Z.shiftl d2 7) d1 - 8192))
  else if status =? 0xc0 then
    let ev := set_type ev MIDI_EVENT_PROGRAM in
    let ev := set_ctrl_param ev 0 in
    d1 ← data !! 1%nat;
    Some (set_ctrl_value ev d1)
  else
    Some (set_type ev MIDI_EVENT_NONE).

(** The result of [midi_event_to_jack]: the caller's array [data] after
    the call and the two reference parameters [len] and [port]. *)
Record jack_bytes : Set := mk_jack_bytes {
  jb_data : list Z;
  jb_len : nat;
  jb_port : Z
}.

(** The [switch] of [midi_event_to_jack]: the array after it, and [len].
    The sum [ev.ctrl.value + 8192] of the pitch-bend case is taken in
    [Z]; the code takes it in [int], where it is the same number as long
    as [pitchbend_sum_fits] holds and overflows otherwise. *)
Definition midi_event_to_jack_switch (ev : MidiEvent) (data : list Z)
    : list Z * nat :=
  match type ev with
  | MIDI_EVENT_NOTEON =>
      let data := <[0%nat := to_uchar 0x90]> data in
      let data := <[1%nat := to_uchar (note_note ev)]> data in
      let data := <[2%nat := to_uchar (note_velocity ev)]> data in
      (data, 3%nat)
  | MIDI_EVENT_NOTEOFF =>
      let data := <[0%nat := to_uchar 0x80]> data in
      let data := <[1%nat := to_uchar (note_note ev)]> data in
      let data := <[2%nat := to_uchar (note_velocity ev)]> data in
      (data, 3%nat)
  | MIDI_EVENT_CTRL =>
      let data := <[0%nat := to_uchar 0xb0]> data in
      let data := <[1%nat := to_uchar (ctrl_param ev)]> data in
      let data := <[2%nat := to_uchar (ctrl_value ev)]> data in
      (data, 3%nat)
  | MIDI_EVENT_PITCHBEND =>
      let data := <[0%nat := to_uchar 0xe0]> data in
      let data := <[1%nat := to_uchar (Z.rem (ctrl_value ev + 8192) 128)]> data in
      let data := <[2%nat := to_uchar (Z.quot (ctrl_value ev + 8192) 128)]> data in
      (data, 3%nat)
  | MIDI_EVENT_PROGRAM =>
      let data := <[0%nat := to_uchar 0xc0]> data in
      let data := <[1%nat := to_uchar (ctrl_value ev)]> data in
      (data, 2%nat)
  | MIDI_EVENT_NONE =>
      (data, 0%nat)
  end.

(** [data[0] |= ev.channel]: the first byte is promoted to [int], or-ed
    with the channel and stored back as an [unsigned char]. *)
Definition or_channel (ev : MidiEvent) (data : list Z) : list Z :=
  match data !! 0%nat with
  | Some d0 => <[0%nat := to_uchar (Z.lor d0 (channel ev))]> data
  | None => data
  end.

(** [BackendJack::midi_event_to_jack].  [data] is the array the caller
    passes in; [process] passes an array of three bytes. *)
Definition midi_event_to_jack (ev : MidiEvent) (data : list Z) : jack_bytes :=
  let '(data, len) := midi_event_to_jack_switch ev data in
  let data := or_channel ev data in
  mk_jack_bytes data len (port ev).

(** The base status byte the [switch] stores for a variant. *)
Definition status_base (t : MidiEventType) : option Z :=
  match t with
  | MIDI_EVENT_NOTEON => Some 0x90
  | MIDI_EVENT_NOTEOFF => Some 0x80
  | MIDI_EVENT_CTRL => Some 0xb0
  | MIDI_EVENT_PITCHBEND => Some 0xe0
  | MIDI_EVENT_PROGRAM => Some 0xc0
  | MIDI_EVENT_NONE => None
  end.


(** ** The ring buffer *)

(** Modelled from the spec: the ring buffer class of [_in_rb] and
    [_out_rb] is not part of the sources at hand.  Following the
    description of the bounded event queue, a queue is its fixed capacity
    and the elements written and not yet read, oldest first: [write]
    drops the event when the queue is full, [read] takes the oldest
    element and fails on an empty queue, [read_space] counts the unread
    elements and [reset] discards them. *)
Module ringbuffer.

Record t : Set := mk {
  capacity : nat;
  items : list MidiEvent
}.

Definition create (n : nat) : t := mk n [].

Definition read_space (rb : t) : nat := length (items rb).

Definition write (ev : MidiEvent) (rb : t) : t :=
  if (read_space rb <? capacity rb)%nat
  then mk (capacity rb) (items rb ++ [ev])
  else rb.

Definition read (rb : t) : option (MidiEvent * t) :=
  match items rb with
  | [] => None
  | ev :: rest => Some (ev, mk (capacity rb) rest)
  end.

(** [rb.read(ev)] as the backend calls it: [ev] is a reference that is
    left untouched when the queue is empty; the boolean result is not
    looked at. *)
Definition read_into (ev : MidiEvent) (rb : t) : MidiEvent * t :=
  match read rb with
  | Some (ev', rb') => (ev', rb')
  | None => (ev, rb)
  end.

Definition reset (rb : t) : t := mk (capacity rb) [].

End ringbuffer.

(** ** The state of a [BackendJack] object *)

(** [_client] and the port handles are the pointers the JACK library
    returned.  [_mutex] tells whether the mutex is held, [_cond] counts
    the threads blocked in [_cond.wait]. *)
Record BackendJack : Set := mkBackendJack {
  _client : Z;
  _in_ports : list Z;
  _out_ports : list Z;
  _in_rb : ringbuffer.t;
  _out_rb : ringbuffer.t;
  _mutex : bool;
  _cond : nat
}.

Definition set_in_rb (b : BackendJack) (rb : ringbuffer.t) : BackendJack :=
  mkBackendJack (_client b) (_in_ports b) (_out_ports b) rb (_out_rb b)
    (_mutex b) (_cond b).
Definition set_out_rb (b : BackendJack) (rb : ringbuffer.t) : BackendJack :=
  mkBackendJack (_client b) (_in_ports b) (_out_ports b) (_in_rb b) rb
    (_mutex b) (_cond b).
Definition set_mutex (b : BackendJack) (m : bool) : BackendJack :=
  mkBackendJack (_client b) (_in_ports b) (_out_ports b) (_in_rb b) (_out_rb b)
    m (_cond b).
Definition set_cond (b : BackendJack) (c : nat) : BackendJack :=
  mkBackendJack (_client b) (_in_ports b) (_out_ports b) (_in_rb b) (_out_rb b)
    (_mutex b) c.

(** [_cond.notify_one()]: one of the blocked threads, if there is one,
    leaves the wait set. *)
Definition notify_one (b : BackendJack) : BackendJack :=
  set_cond b (Nat.pred (_cond b)).

(** [v[i]] for a [std::vector] and an [int] index; undefined outside the
    vector. *)
Definition vector_at (v : list Z) (i : Z) : option Z :=
  if 0 <=? i then v !! Z.to_nat i else None.

(** ** The process callback *)

(** What the callback does to the output port buffers. *)
Inductive jack_call : Set :=
  | Jack_midi_clear_buffer (port_handle : Z)
  | Jack_midi_event_write (port_handle : Z) (time : Z) (data : list Z).

Definition is_write (c : jack_call) : bool :=
  match c with
  | Jack_midi_event_write _ _ _ => true
  | Jack_midi_clear_buffer _ => false
  end.

(** The inner loop over the events of input port [n]. *)
Fixpoint process_in_events (ev0 : MidiEvent) (n : nat)
    (evs : list jack_midi_event_t) (b : BackendJack) : option BackendJack :=
  match evs with
  | [] => Some b
  | jack_ev :: evs =>
      ev ← jack_to_midi_event ev0 jack_ev (Z.of_nat n);
      process_in_events ev0 n evs (set_in_rb b (ringbuffer.write ev (_in_rb b)))
  end.

(** The loop over the input ports, from port [n] on; [port_buffer n] is
    what the library holds for input port [n] in this block. *)
Fixpoint process_in_ports (ev0 : MidiEvent)
    (port_buffer : nat -> list jack_midi_event_t)
    (n : nat) (ports : list Z) (b : BackendJack) : option BackendJack :=
  match ports with
  | [] => Some b
  | _ :: ports =>
      let num_events := length (port_buffer n) in
      b ← process_in_events ev0 n (port_buffer n) b;
      let b := if (num_events =? 0)%nat then b else notify_one b in
      process_in_ports ev0 port_buffer (S n) ports b
  end.

(** The loop that clears the output port buffers. *)
Definition process_clear (ports : list Z) : list jack_call :=
  map Jack_midi_clear_buffer ports.

(** The [while (_out_rb.read_space())] loop.  [uninit k] is the content
    the uninitialised array [data] happens to have in the iteration that
    starts with fuel [k]. *)
Fixpoint process_out (fuel : nat) (ev0 : MidiEvent) (uninit : nat -> list Z)
    (b : BackendJack) (calls : list jack_call)
    : option (BackendJack * list jack_call) :=
  if (ringbuffer.read_space (_out_rb b) =? 0)%nat then Some (b, calls)
  else
    match fuel with
    | O => None
    | S fuel' =>
        let '(ev, rb) := ringbuffer.read_into ev0 (_out_rb b) in
        let b := set_out_rb b rb in
        let jb := midi_event_to_jack ev (uninit fuel) in
        if (jb_len jb =? 0)%nat then
          process_out fuel' ev0 uninit b calls
        else
          port_handle ← vector_at (_out_ports b) (jb_port jb);
          process_out fuel' ev0 uninit b
            (calls ++ [Jack_midi_event_write port_handle 0
                         (take (jb_len jb) (jb_data jb))])
    end.

(** [BackendJack::process]; it always returns 0, which is left out.  The
    result is [None] where the C++ code has undefined behaviour: a
    message shorter than the bytes the decoder reads, or an event whose
    port is not an index of [_out_ports]. *)
Definition process (ev0 : MidiEvent)
    (port_buffer : nat -> list jack_midi_event_t) (uninit : nat -> list Z)
    (b : BackendJack) : option (BackendJack * list jack_call) :=
  b ← process_in_ports ev0 port_buffer 0 (_in_ports b) b;
  let calls := process_clear (_out_ports b) in
  process_out (ringbuffer.read_space (_out_rb b)) ev0 uninit b calls.

(** ** The operations of the application thread *)

(** [BackendJack::output_event]. *)
Definition output_event (ev : MidiEvent) (b : BackendJack) : BackendJack :=
  set_out_rb b (ringbuffer.write ev (_out_rb b)).

(** [BackendJack::drop_input]. *)
Definition drop_input (b : BackendJack) : BackendJack :=
  set_in_rb b (ringbuffer.reset (_in_rb b)).

(** [BackendJack::flush_output]: the body is empty. *)
Definition flush_output (b : BackendJack) : BackendJack := b.

(** ** The JACK library as the constructor sees it *)

Definition NULL : Z := 0.

Inductive JackPortFlags : Set := JackPortIsInput | JackPortIsOutput.

(** The calls of the JACK API the constructor makes.  The library is an
    external collaborator with a state of its own: a call returns its
    result together with the library's next state. *)
Class JackLibrary (L : Type) := {
  jack_client_open : string -> L -> Z * L;
  jack_set_process_callback : Z -> L -> Z * L;
  jack_port_register : Z -> string -> JackPortFlags -> L -> Z * L;
  jack_activate : Z -> L -> Z * L
}.

(** A call that was made, with what it returned. *)
Inductive lib_call : Set :=
  | Call_client_open (client_name : string) (result : Z)
  | Call_set_process_callback (client : Z) (result : Z)
  | Call_port_register (client : Z) (port_name : string)
      (flags : JackPortFlags) (result : Z)
  | Call_activate (client : Z) (result : Z).

Inductive BackendError : Set := mkBackendError (what : string).

Section Constructor.

Context {L : Type} `{JackLibrary L}.

(** The library's state and the calls made so far. *)
Record world : Type := mk_world {
  lib : L;
  log : list lib_call
}.

(** Computations that call the library and may throw. *)
Definition M (A : Type) : Type := world -> (BackendError + A) * world.

Definition ret {A} (a : A) : M A := fun w => (inr a, w).

Definition throw {A} (e : BackendError) : M A := fun w => (inl e, w).

Definition bind {A B} (m : M A) (k : A -> M B) : M B :=
  fun w =>
    match m w with
    | (inl e, w') => (inl e, w')
    | (inr a, w') => k a w'
    end.

Definition lib_call_of {A} (f : L -> A * L) (entry : A -> lib_call) : M A :=
  fun w =>
    let '(r, s) := f (lib w) in
    (inr r, mk_world s (log w ++ [entry r])).

Definition call_client_open (client_name : string) : M Z :=
  lib_call_of (jack_client_open client_name) (Call_client_open client_name).

Definition call_set_process_callback (client : Z) : M Z :=
  lib_call_of (jack_set_process_callback client)
    (Call_set_process_callback client).

Definition call_port_register (client : Z) (port_name : string)
    (flags : JackPortFlags) : M Z :=
  lib_call_of (jack_port_register client port_name flags)
    (Call_port_register client port_name flags).

Definition call_activate (client : Z) : M Z :=
  lib_call_of (jack_activate client) (Call_activate client).

(** One of the two registration loops, from index [n] on: [names] are
    the port names not yet registered, [ports] is the vector of
    handles. *)
Fixpoint register_ports (client : Z) (flags : JackPortFlags)
    (what : string) (names : list string) (n : nat) (ports : list Z)
    : M (list Z) :=
  match names with
  | [] => ret ports
  | name :: names =>
      bind (call_port_register client name flags) (fun p =>
      let ports := <[n := p]> ports in
      if p =? NULL then throw (mkBackendError what)
      else register_ports client flags what names (S n) ports)
  end.

(** [BackendJack::BackendJack].  [MAX_JACK_EVENTS] is
    [Config::MAX_JACK_EVENTS], a constant of config.hh. *)
Definition BackendJack_new (MAX_JACK_EVENTS : nat) (client_name : string)
    (in_portnames out_portnames : list string) : M BackendJack :=
  let in_ports := replicate (length in_portnames) NULL in
  let out_ports := replicate (length out_portnames) NULL in
  let in_rb := ringbuffer.create MAX_JACK_EVENTS in
  let out_rb := ringbuffer.create MAX_JACK_EVENTS in
  bind (call_client_open client_name) (fun client =>
  if client =? 0 then
    throw (mkBackendError "can't connect to jack server")
  else
  bind (call_set_process_callback client) (fun _ =>
  bind (register_ports client JackPortIsInput "error creating input port"
          in_portnames 0 in_ports) (fun in_ports =>
  bind (register_ports client JackPortIsOutput "error creating output port"
          out_portnames 0 out_ports) (fun out_ports =>
  bind (call_activate client) (fun failed =>
  if negb (failed =? 0) then
    throw (mkBackendError "can't activate client")
  else
    ret (mkBackendJack client in_ports out_ports in_rb out_rb false 0)))))).

(** Running the constructor against a library in state [s]. *)
Definition construct (MAX_JACK_EVENTS : nat) (client_name : string)
    (in_portnames out_portnames : list string) (s : L)
    : (BackendError + BackendJack) * world :=
  BackendJack_new MAX_JACK_EVENTS client_name in_portnames out_portnames
    (mk_world s []).

End Constructor.

Arguments world L : clear implicits.
Arguments M L A : clear implicits.

(** The three [ASSERT]s at the head of the constructor. *)
Definition constructor_requires (client_name : string)
    (in_portnames out_portnames : list string) : Prop :=
  client_name <> EmptyString /\ in_portnames <> [] /\ out_portnames <> [].

(** A call that did not succeed: a null client, a null port, a non-zero
    result of the activation. *)
Definition call_failed (c : lib_call) : bool :=
  match c with
  | Call_client_open _ r => r =? 0
  | Call_set_process_callback _ _ => false
  | Call_port_register _ _ _ r => r =? NULL
  | Call_activate _ r => negb (r =? 0)
  end.

(** The message the constructor throws for a failed call. *)
Definition error_message (c : lib_call) : string :=
  match c with
  | Call_client_open _ _ => "can't connect to jack server"
  | Call_port_register _ _ JackPortIsInput _ => "error creating input port"
  | Call_port_register _ _ JackPortIsOutput _ => "error creating output port"
  | Call_activate _ _ => "can't activate client"
  | Call_set_process_callback _ _ => EmptyString
  end.

(** The messages as the interface description gives them. *)
Definition documented_message (c : lib_call) : string :=
  match c with
  | Call_client_open _ _ => "can't connect to device server"
  | Call_port_register _ _ _ _ => "error creating input/output port"
  | Call_activate _ _ => "can't activate client"
  | Call_set_process_callback _ _ => EmptyString
  end.

(** ** [input_event] next to the realtime thread *)

(** [BackendJack::input_event] runs on the application thread while the
    process callback runs on the realtime thread.  The application thread
    is followed through its control points, one shared access at a time:
    the loop test is outside the mutex, and taking the mutex, entering
    the wait and leaving it are steps of their own, so that the realtime
    thread can act between any two of them.  The realtime thread takes
    part through the two things its callback does to the shared state,
    [_in_rb.write(ev)] and [_cond.notify_one()], both without the
    mutex. *)
Inductive input_event_pc : Set :=
  | PC_check                      (* about to test [!_in_rb.read_space()] *)
  | PC_lock                       (* queue found empty, about to take [_mutex] *)
  | PC_cond_wait                  (* holds [_mutex], about to call [_cond.wait(lock)] *)
  | PC_wait                       (* blocked in [_cond.wait(lock)], [_mutex] released *)
  | PC_woken                      (* woken, about to take [_mutex] again *)
  | PC_unlock                     (* the wait returned, [lock] goes out of scope *)
  | PC_read                       (* the loop is left, about to [_in_rb.read(ev)] *)
  | PC_return (ev : MidiEvent).   (* returned, [ev] holds the result *)

Record system : Set := mk_system {
  backend : BackendJack;
  pc : input_event_pc
}.

Inductive action : Set :=
  | App_step                      (* the application thread moves on *)
  | Rt_write (ev : MidiEvent)     (* the callback executes [_in_rb.write(ev)] *)
  | Rt_notify                     (* the callback executes [_cond.notify_one()] *)
  | Spurious_wakeup.              (* [_cond.wait] wakes without a notification *)

(** A thread blocked in [_cond.wait] leaves the wait set; it still has
    to take the mutex again before the wait returns.  A thread that is
    not in the wait set is not affected. *)
Definition wake (c : system) : system :=
  match pc c with
  | PC_wait => mk_system (notify_one (backend c)) PC_woken
  | _ => c
  end.

(** One step of the application thread inside [input_event(ev)]; [ev_in]
    is the content of the caller's [ev].  A thread that needs the mutex
    while it is held, or that is blocked in the wait, does not move. *)
Definition app_step (ev_in : MidiEvent) (c : system) : system :=
  let b := backend c in
  match pc c with
  | PC_check =>
      if (ringbuffer.read_space (_in_rb b) =? 0)%nat
      then mk_system b PC_lock
      else mk_system b PC_read
  | PC_lock =>
      (* [boost::mutex::scoped_lock lock(_mutex);] *)
      if _mutex b then c else mk_system (set_mutex b true) PC_cond_wait
  | PC_cond_wait =>
      (* [_cond.wait(lock);] releases the mutex and blocks *)
      mk_system (set_cond (set_mutex b false) (S (_cond b))) PC_wait
  | PC_wait => c
  | PC_woken =>
      (* the wait takes the mutex again and returns *)
      if _mutex b then c else mk_system (set_mutex b true) PC_unlock
  | PC_unlock =>
      (* end of the loop body: [lock] is destroyed *)
      mk_system (set_mutex b false) PC_check
  | PC_read =>
      let '(ev, rb) := ringbuffer.read_into ev_in (_in_rb b) in
      mk_system (set_in_rb b rb) (PC_return ev)
  | PC_return _ => c
  end.

Definition step (ev_in : MidiEvent) (a : action) (c : system) : system :=
  match a with
  | App_step => app_step ev_in c
  | Rt_write ev =>
      mk_system (set_in_rb (backend c) (ringbuffer.write ev (_in_rb (backend c))))
        (pc c)
  | Rt_notify =>
      match pc c with
      | PC_wait => wake c
      | _ => mk_system (notify_one (backend c)) (pc c)
      end
  | Spurious_wakeup => wake c
  end.

(** A schedule is the order in which the two threads act. *)
Fixpoint run (ev_in : MidiEvent) (sched : list action) (c : system) : system :=
  match sched with
  | [] => c
  | a :: sched => run ev_in sched (step ev_in a c)
  end.

(** The call [input_event(ev)] starts at the loop condition. *)
Definition input_event_start (b : BackendJack) : system := mk_system b PC_check.

Definition returned (c : system) : option MidiEvent :=
  match pc c with
  | PC_return ev => Some ev
  | _ => None
  end.

Definition is_rt_write (a : action) : bool :=
  match a with
  | Rt_write _ => true
  | _ => false
  end.

(** The actions of the realtime thread. *)
Definition is_rt_action (a : action) : bool :=
  match a with
  | Rt_write _ | Rt_notify => true
  | App_step | Spurious_wakeup => false
  end.

(** ** Notions used in the statements *)

(** An event the encoder gives bytes for, and the number of writes among
    the calls of the callback. *)
Definition has_encoding (ev : MidiEvent) : bool := representable (type ev).

Definition count_writes (calls : list jack_call) : nat :=
  length (List.filter is_write calls).

(** An event that names an output port when it is going to be written. *)
Definition port_valid (out_ports : list Z) (ev : MidiEvent) : Prop :=
  has_encoding ev = true -> is_Some (vector_at out_ports (port ev)).

(** A library for experiments: its state is the list of the results it is
    going to return, call after call; once the list is used up every
    call returns 0. *)
Definition scripted_call (s : list Z) : Z * list Z :=
  match s with
  | [] => (0, [])
  | r :: s => (r, s)
  end.

Definition scripted_library : JackLibrary (list Z) := {|
  jack_client_open := fun _ => scripted_call;
  jack_set_process_callback := fun _ => scripted_call;
  jack_port_register := fun _ _ _ => scripted_call;
  jack_activate := fun _ => scripted_call
|}.

Definition no_failed_call (l : list lib_call) : Prop :=
  existsb call_failed l = false.

(** What a step of the constructor guarantees when no call has failed
    before it: either it throws, right after a failed call and with the
    message of that call, or it goes on and still no call has failed. *)
Definition throws_on_failure {L A} (m : M L A) : Prop :=
  forall w, no_failed_call (log w) ->
    match m w with
    | (inl e, w') =>
        exists pre c, log w' = pre ++ [c] /\ no_failed_call pre
                      /\ call_failed c = true
                      /\ e = mkBackendError (error_message c)
    | (inr _, w') => no_failed_call (log w')
    end.

Definition in_items (c : system) : list MidiEvent :=
  ringbuffer.items (_in_rb (backend c)).

(** Once the loop of [input_event] is left, the inbound queue is not
    empty: only the application thread takes elements out. *)
Definition read_enabled (c : system) : Prop :=
  pc c = PC_read -> in_items c <> [].

(** The queue is empty and the thread is inside the loop of
    [input_event]: at the loop test, on its way into the wait, blocked
    in it, or on its way back to the loop test. *)
Definition waiting_for_data (c : system) : Prop :=
  in_items c = [] /\ pc c <> PC_read /\ returned c = None.

(** The realtime thread writes the events of [sched] that are writes. *)
Definition written (sched : list action) : list MidiEvent :=
  omap (fun a => match a with Rt_write ev => Some ev | _ => None end) sched.

(** ** Notions used in the further properties *)

(** The number of bytes [jack_to_midi_event] reads from a message whose
    first byte is [s]: the status byte and the data bytes of the branch
    the [switch] takes. *)
Definition bytes_read (s : Z) : nat :=
  let status := Z.land s 0xf0 in
  if (status =? 0x90) || (status =? 0x80) || (status =? 0xb0) || (status =? 0xe0)
  then 3%nat
  else if status =? 0xc0 then 2%nat else 1%nat.

(** The message [process] hands to [jack_midi_event_write] for an event:
    the first [len] bytes of the array after [midi_event_to_jack]. *)
Definition message_of (ev : MidiEvent) (data : list Z) : list Z :=
  let jb := midi_event_to_jack ev data in
  take (jb_len jb) (jb_data jb).

(** The calls one iteration of the drain loop adds for an event, on a
    zeroed array. *)
Definition event_calls (out_ports : list Z) (ev : MidiEvent)
    : option (list jack_call) :=
  if has_encoding ev then
    port_handle ← vector_at out_ports (port ev);
    Some [Jack_midi_event_write port_handle 0 (message_of ev [0; 0; 0])]
  else Some [].

Fixpoint queue_calls (out_ports : list Z) (evs : list MidiEvent)
    : option (list jack_call) :=
  match evs with
  | [] => Some []
  | ev :: evs =>
      c ← event_calls out_ports ev;
      cs ← queue_calls out_ports evs;
      Some (c ++ cs)
  end.

(** The events of the input port buffers, decoded, in the order the
    callback visits them: port after port from port [n] on, and within a
    port in the order of the buffer. *)
Fixpoint decode_events (ev0 : MidiEvent) (n : nat)
    (evs : list jack_midi_event_t) : option (list MidiEvent) :=
  match evs with
  | [] => Some []
  | jack_ev :: evs =>
      ev ← jack_to_midi_event ev0 jack_ev (Z.of_nat n);
      rest ← decode_events ev0 n evs;
      Some (ev :: rest)
  end.

Fixpoint decode_ports (ev0 : MidiEvent)
    (port_buffer : nat -> list jack_midi_event_t) (n : nat) (ports : list Z)
    : option (list MidiEvent) :=
  match ports with
  | [] => Some []
  | _ :: ports =>
      evs ← decode_events ev0 n (port_buffer n);
      rest ← decode_ports ev0 port_buffer (S n) ports;
      Some (evs ++ rest)
  end.

(** What a queue holds after a run of writes: the events that found
    room. *)
Definition items_after_writes (rb : ringbuffer.t) (evs : list MidiEvent)
    : list MidiEvent :=
  ringbuffer.items rb
  ++ take (ringbuffer.capacity rb - length (ringbuffer.items rb)) evs.

(** A call of the constructor without its result. *)
Inductive request : Set :=
  | Req_client_open (client_name : string)
  | Req_set_process_callback (client : Z)
  | Req_port_register (client : Z) (port_name : string) (flags : JackPortFlags)
  | Req_activate (client : Z).

Definition request_of (c : lib_call) : request :=
  match c with
  | Call_client_open name _ => Req_client_open name
  | Call_set_process_callback client _ => Req_set_process_callback client
  | Call_port_register client name flags _ => Req_port_register client name flags
  | Call_activate client _ => Req_activate client
  end.

Definition result_of (c : lib_call) : Z :=
  match c with
  | Call_client_open _ r => r
  | Call_set_process_callback _ r => r
  | Call_port_register _ _ _ r => r
  | Call_activate _ r => r
  end.

(** The requests of a construction that runs to its end, after the
    client was opened with handle [client]. *)
Definition requests_after_open (client : Z)
    (in_portnames out_portnames : list string) : list request :=
  Req_set_process_callback client
  :: map (fun name => Req_port_register client name JackPortIsInput) in_portnames
  ++ map (fun name => Req_port_register client name JackPortIsOutput) out_portnames
  ++ [Req_activate client].

Definition is_activate (c : lib_call) : bool :=
  match c with
  | Call_activate _ _ => true
  | _ => false
  end.

(** What the encoder needs from an event when [process] calls it on its
    uninitialised array: a case of the [switch] that stores [data[0]]
    before [data[0] |= ev.channel] reads it, and a pitch-bend sum that
    does not overflow. *)
Definition encode_well_defined (ev : MidiEvent) : Prop :=
  has_encoding ev = true /\ pitchbend_sum_fits ev.

(** The number of input ports, among [n_ports] ports from port [n] on,
    whose buffer holds at least one event in this block. *)
Definition ports_with_events (port_buffer : nat -> list jack_midi_event_t)
    (n n_ports : nat) : nat :=
  length (List.filter (fun k => negb (length (port_buffer k) =? 0)%nat)
            (seq n n_ports)).

(** A write at the start of the block to one of the ports [out_ports],
    of two or three byte values. *)
Definition is_block_start_write (out_ports : list Z) (c : jack_call) : Prop :=
  match c with
  | Jack_midi_event_write port_handle time data =>
      port_handle ∈ out_ports /\ time = 0
      /\ (length data = 2%nat \/ length data = 3%nat)
      /\ Forall is_uchar data
  | Jack_midi_clear_buffer _ => False
  end.

(** Whether a construction returned a backend. *)
Definition is_inr_backend (res : BackendError + BackendJack) : bool :=
  match res with
  | inr _ => true
  | inl _ => false
  end.

(** A backend and a block of input for experiments. *)
Definition example_backend : BackendJack :=
  mkBackendJack 5 [11; 12] [21; 22]
    (ringbuffer.mk 4 [])
    (ringbuffer.mk 4 [mkMidiEvent MIDI_EVENT_NOTEON 1 3 60 100;
                      mkMidiEvent MIDI_EVENT_NONE 0 4 0 0;
                      mkMidiEvent MIDI_EVENT_PROGRAM 0 2 0 9])
    false 1.

Definition example_port_buffer (n : nat) : list jack_midi_event_t :=
  match n with
  | 1%nat => [mk_jack_midi_event 0 3 [0x93; 60; 100];
              mk_jack_midi_event 5 2 [0xc2; 9]]
  | _ => []
  end.

(** * Properties *)

(** ** Examples of the codec *)

Example decode_note_on :
  jack_to_midi_event (mkMidiEvent MIDI_EVENT_NONE 0 0 0 0)
    (mk_jack_midi_event 0 3 [0x93; 60; 100]) 2
  = Some (mkMidiEvent MIDI_EVENT_NOTEON 2 3 60 100).
Proof. reflexivity. Qed.

Example encode_note_on :
  midi_event_to_jack (mkMidiEvent MIDI_EVENT_NOTEON 2 3 60 100) [7; 7; 7]
  = mk_jack_bytes [0x93; 60; 100] 3 2.
Proof. reflexivity. Qed.

Example encode_program :
  midi_event_to_jack (mkMidiEvent MIDI_EVENT_PROGRAM 0 5 0 9) [7; 7; 7]
  = mk_jack_bytes [0xc5; 9; 7] 2 0.
Proof. reflexivity. Qed.

(** ** Bit-level facts used by the codec *)

Lemma to_uchar_small (x : Z) : 0 <= x <= 255 -> to_uchar x = x.
Proof. intros Hx. unfold to_uchar. apply Z.mod_small. lia. Qed.

Lemma to_uchar_range (x : Z) : is_uchar (to_uchar x).
Proof.
  unfold is_uchar, to_uchar.
  pose proof (Z.mod_pos_bound x 256 ltac:(lia)). lia.
Qed.

Lemma land_0x0f_range (s : Z) : 0 <= Z.land s 0x0f <= 15.
Proof.
  change 0x0f with (Z.ones 4).
  rewrite Z.land_ones by lia.
  change (2 ^ 4) with 16. change (Z.ones 4) with 15.
  pose proof (Z.mod_pos_bound s 16 ltac:(lia)). lia.
Qed.

Lemma land_shiftl7_low (q r : Z) : 0 <= r < 128 -> Z.land (Z.shiftl q 7) r = 0.
Proof.
  intros Hr. apply Z.bits_inj'. intros n Hn.
  rewrite Z.land_spec, Z.bits_0.
  destruct (Z.lt_ge_cases n 7) as [Hlow | Hhigh].
  - rewrite Z.shiftl_spec_low by assumption. reflexivity.
  - assert (Z.testbit r n = false) as ->; [| apply andb_false_r].
    destruct (Z.eq_dec r 0) as [-> | Hnz]; [apply Z.bits_0 |].
    apply Z.bits_above_log2; [lia |].
    assert (Z.log2 r < 7); [| lia].
    apply Z.log2_lt_pow2; lia.
Qed.

Lemma lor_shiftl7 (q r : Z) :
  0 <= r < 128 -> Z.lor (Z.shiftl q 7) r = q * 128 + r.
Proof.
  intros Hr.
  pose proof (Z.add_lor_land (Z.shiftl q 7) r) as Hadd.
  rewrite land_shiftl7_low in Hadd by assumption.
  rewrite Z.shiftl_mul_pow2 in Hadd by lia.
  rewrite Z.shiftl_mul_pow2 by lia.
  change (2 ^ 7) with 128 in *. lia.
Qed.

Lemma lor_lt_pow2 (a b n : Z) :
  0 <= a < 2 ^ n -> 0 <= b < 2 ^ n -> 0 <= Z.lor a b < 2 ^ n.
Proof.
  intros Ha Hb.
  assert (0 <= Z.lor a b) as Hnn by (apply Z.lor_nonneg; lia).
  split; [assumption |].
  destruct (Z.eq_dec (Z.lor a b) 0) as [-> | Hnz]; [lia |].
  assert (0 < n) as Hn.
  { destruct (Z.lt_ge_cases 0 n) as [| Hle]; [assumption |].
    exfalso. apply Hnz.
    assert (2 ^ n <= 1).
    { destruct (Z.eq_dec n 0) as [-> | ]; [simpl; lia |].
      rewrite Z.pow_neg_r by lia. lia. }
    replace a with 0 by lia. replace b with 0 by lia. reflexivity. }
  apply Z.log2_lt_pow2; [lia |].
  rewrite Z.log2_lor by lia.
  assert (forall x, 0 <= x < 2 ^ n -> Z.log2 x < n) as Hlog.
  { intros x Hx. destruct (Z.eq_dec x 0) as [-> | ]; [simpl; lia |].
    apply Z.log2_lt_pow2; lia. }
  apply Z.max_lub_lt; apply Hlog; assumption.
Qed.

Lemma pitchbend_word_range (d1 d2 : Z) :
  is_uchar d1 -> is_uchar d2 ->
  -8192 <= Z.lor (Z.shiftl d2 7) d1 - 8192 <= 24575.
Proof.
  unfold is_uchar. intros H1 H2.
  assert (0 <= Z.lor (Z.shiftl d2 7) d1 < 2 ^ 15); [| lia].
  apply lor_lt_pow2.
  - rewrite Z.shiftl_mul_pow2 by lia. lia.
  - lia.
Qed.

(** The channel values 0..15, one by one. *)
Lemma channel_cases (c : Z) :
  in_channel c = true ->
  c = 0 \/ c = 1 \/ c = 2 \/ c = 3 \/ c = 4 \/ c = 5 \/ c = 6 \/ c = 7
  \/ c = 8 \/ c = 9 \/ c = 10 \/ c = 11 \/ c = 12 \/ c = 13 \/ c = 14
  \/ c = 15.
Proof. unfold in_channel. lia. Qed.

Ltac each_channel c H :=
  apply channel_cases in H;
  repeat (destruct H as [H | H]); subst c.

Lemma in_7bit_spec (x : Z) : in_7bit x = true <-> 0 <= x <= 127.
Proof. unfold in_7bit. lia. Qed.

Lemma in_pitchbend_spec (x : Z) : in_pitchbend x = true <-> -8192 <= x <= 8191.
Proof. unfold in_pitchbend. lia. Qed.

Lemma in_channel_spec (x : Z) : in_channel x = true <-> 0 <= x <= 15.
Proof. unfold in_channel. lia. Qed.

(** With a channel in 0..15 the status byte is the base plus the channel,
    and both nibbles can be read back. *)
Lemma status_nibbles (t : MidiEventType) (base c : Z) :
  status_base t = Some base -> in_channel c = true ->
  to_uchar (Z.lor (to_uchar base) c) = Z.lor base (Z.land c 0x0f)
  /\ Z.land (Z.lor base (Z.land c 0x0f)) 0x0f = c
  /\ Z.land (Z.lor base (Z.land c 0x0f)) 0xf0 = base.
Proof.
  intros Hb Hc.
  destruct t; simpl in Hb; inversion Hb; subst base;
    each_channel c Hc; repeat split; reflexivity.
Qed.

Lemma pitchbend_bytes (v : Z) :
  -8192 <= v <= 8191 ->
  0 <= Z.rem (v + 8192) 128 <= 127 /\ 0 <= Z.quot (v + 8192) 128 <= 127.
Proof.
  intros Hv.
  rewrite Z.rem_mod_nonneg, Z.quot_div_nonneg by lia.
  pose proof (Z.mod_pos_bound (v + 8192) 128 ltac:(lia)).
  pose proof (Z.div_pos (v + 8192) 128 ltac:(lia) ltac:(lia)).
  assert ((v + 8192) / 128 < 128) by (apply Z.div_lt_upper_bound; lia).
  lia.
Qed.

Lemma pitchbend_roundtrip (v : Z) :
  -8192 <= v <= 8191 ->
  Z.lor (Z.shiftl (to_uchar (Z.quot (v + 8192) 128)) 7)
        (to_uchar (Z.rem (v + 8192) 128)) - 8192 = v.
Proof.
  intros Hv. destruct (pitchbend_bytes v Hv) as [Hr Hq].
  rewrite !to_uchar_small by lia.
  rewrite lor_shiftl7 by lia.
  rewrite Z.rem_mod_nonneg, Z.quot_div_nonneg by lia.
  pose proof (Z.div_mod (v + 8192) 128 ltac:(lia)). lia.
Qed.

(** ** The wire codec *)

Ltac codec_unfold :=
  unfold midi_event_to_jack, midi_event_to_jack_switch, or_channel,
    jack_to_midi_event, note_note, note_velocity, ctrl_param, ctrl_value,
    set_note_note, set_note_velocity, set_ctrl_param, set_ctrl_value,
    set_data1, set_data2, set_type, set_channel, set_port;
  cbn -[to_uchar Z.lor Z.land Z.rem Z.quot Z.shiftl Z.eqb Z.sub Z.add].

(** What the decoder gives back for the bytes of the encoder: the event
    itself, with the unused parameter word of a pitch bend or program
    change set to 0. *)
Lemma decode_encode_general (ev0 e : MidiEvent) (data : list Z) (t : Z) :
  length data = 3%nat ->
  representable (type e) = true ->
  used_in_range e = true ->
  let jb := midi_event_to_jack e data in
  jack_to_midi_event ev0
    (mk_jack_midi_event t (jb_len jb) (take (jb_len jb) (jb_data jb)))
    (jb_port jb) = Some (clear_unused e)
  /\ jack_to_midi_event ev0
       (mk_jack_midi_event t (length (jb_data jb)) (jb_data jb))
       (jb_port jb) = Some (clear_unused e).
Proof.
  destruct e as [ty p c d1 d2].
  destruct data as [| a [| b [| d [| ? ?]]]]; try discriminate.
  intros _ Hrep Hr. unfold used_in_range in Hr. cbn [channel type] in Hr.
  apply andb_true_iff in Hr as [Hc Hp].
  unfold note_note, note_velocity, ctrl_param, ctrl_value in Hp.
  cbn [data1 data2] in Hp.
  destruct ty; try discriminate Hrep.
  - (* note on *)
    apply andb_true_iff in Hp as [Hp1 Hp2]. apply in_7bit_spec in Hp1, Hp2.
    destruct (status_nibbles MIDI_EVENT_NOTEON _ c eq_refl Hc) as (E1 & E2 & E3).
    codec_unfold. rewrite E1, !to_uchar_small by lia.
    cbn -[Z.lor Z.land Z.eqb]. rewrite E2, E3. split; reflexivity.
  - (* note off *)
    apply andb_true_iff in Hp as [Hp1 Hp2]. apply in_7bit_spec in Hp1, Hp2.
    destruct (status_nibbles MIDI_EVENT_NOTEOFF _ c eq_refl Hc) as (E1 & E2 & E3).
    codec_unfold. rewrite E1, !to_uchar_small by lia.
    cbn -[Z.lor Z.land Z.eqb]. rewrite E2, E3. split; reflexivity.
  - (* control change *)
    apply andb_true_iff in Hp as [Hp1 Hp2]. apply in_7bit_spec in Hp1, Hp2.
    destruct (status_nibbles MIDI_EVENT_CTRL _ c eq_refl Hc) as (E1 & E2 & E3).
    codec_unfold. rewrite E1, !to_uchar_small by lia.
    cbn -[Z.lor Z.land Z.eqb]. rewrite E2, E3. split; reflexivity.
  - (* pitch bend *)
    apply in_pitchbend_spec in Hp.
    destruct (status_nibbles MIDI_EVENT_PITCHBEND _ c eq_refl Hc) as (E1 & E2 & E3).
    codec_unfold. rewrite E1.
    cbn -[to_uchar Z.lor Z.land Z.rem Z.quot Z.shiftl Z.eqb Z.sub Z.add].
    rewrite E2, E3.
    cbn -[to_uchar Z.lor Z.land Z.rem Z.quot Z.shiftl Z.sub Z.add].
    rewrite pitchbend_roundtrip by assumption. split; reflexivity.
  - (* program change *)
    apply in_7bit_spec in Hp.
    destruct (status_nibbles MIDI_EVENT_PROGRAM _ c eq_refl Hc) as (E1 & E2 & E3).
    codec_unfold. rewrite E1, !to_uchar_small by lia.
    cbn -[Z.lor Z.land Z.eqb]. rewrite E2, E3. split; reflexivity.
Qed.

Lemma in_range_used (e : MidiEvent) :
  in_range e = true -> used_in_range e = true /\ clear_unused e = e.
Proof.
  destruct e as [ty p c d1 d2].
  unfold in_range, used_in_range, payload_in_range, clear_unused,
    note_note, note_velocity, ctrl_param, ctrl_value, set_ctrl_param, set_data1.
  cbn [type channel data1 data2 port]. intros Hr.
  apply andb_true_iff in Hr as [Hc Hp]. rewrite Hc.
  destruct ty; try (split; [exact Hp | reflexivity]);
    apply andb_true_iff in Hp as [Hzero Hval]; apply Z.eqb_eq in Hzero;
    subst d1; (split; [exact Hval | reflexivity]).
Qed.

(** C1, as the code has it.  Round trip.  For every event of a
    representable variant (note on, note off, control change, pitch
    bend, program change) whose fields are in the documented ranges and
    whose parameter word, if the variant does not use it (pitch bend and
    program change), is 0, decoding the bytes that encoding produced,
    with the encoded port as the port argument, gives the event back.
    This holds for the [len] bytes that are written to the port as well
    as for the whole three-byte array. *)
Theorem decode_encode_roundtrip (ev0 e : MidiEvent) (data : list Z) (t : Z) :
  length data = 3%nat ->
  representable (type e) = true ->
  in_range e = true ->
  let jb := midi_event_to_jack e data in
  jack_to_midi_event ev0
    (mk_jack_midi_event t (jb_len jb) (take (jb_len jb) (jb_data jb)))
    (jb_port jb) = Some e
  /\ jack_to_midi_event ev0
       (mk_jack_midi_event t (length (jb_data jb)) (jb_data jb))
       (jb_port jb) = Some e.
Proof.
  intros Hlen Hrep Hr.
  destruct (in_range_used e Hr) as [Hused Hclear].
  pose proof (decode_encode_general ev0 e data t Hlen Hrep Hused) as Hgen.
  rewrite Hclear in Hgen. exact Hgen.
Qed.

Lemma decode_encode_roundtrip_witness :
  jack_to_midi_event (mkMidiEvent MIDI_EVENT_NONE 0 0 0 0)
    (mk_jack_midi_event 0 3 [0xe5; 0; 64]) 1
  = Some (mkMidiEvent MIDI_EVENT_PITCHBEND 1 5 0 0).
Proof.
  exact (proj1 (decode_encode_roundtrip (mkMidiEvent MIDI_EVENT_NONE 0 0 0 0)
           (mkMidiEvent MIDI_EVENT_PITCHBEND 1 5 0 0) [7; 7; 7] 0
           eq_refl eq_refl eq_refl)).
Defined.

(** C1 as stated fails: a program change whose parameter word is 3, with
    every field within 0..127 and the channel within 0..15, comes back
    from the codec with the parameter word 0.  The word is not on the
    wire and the decoder stores 0. *)
Lemma roundtrip_loses_program_param :
  let e := mkMidiEvent MIDI_EVENT_PROGRAM 0 5 3 9 in
  let jb := midi_event_to_jack e [0; 0; 0] in
  representable (type e) = true
  /\ in_channel (channel e) = true
  /\ in_7bit (ctrl_param e) = true
  /\ in_7bit (ctrl_value e) = true
  /\ jack_to_midi_event (mkMidiEvent MIDI_EVENT_NONE 0 0 0 0)
       (mk_jack_midi_event 0 (jb_len jb) (take (jb_len jb) (jb_data jb)))
       (jb_port jb)
     = Some (mkMidiEvent MIDI_EVENT_PROGRAM 0 5 0 9)
  /\ jack_to_midi_event (mkMidiEvent MIDI_EVENT_NONE 0 0 0 0)
       (mk_jack_midi_event 0 3 (jb_data jb)) (jb_port jb)
     <> Some e.
Proof. cbn. repeat split. discriminate. Qed.

(** The parameter word of a program change is not on the wire: the
    decoder sets it to 0 whatever the encoded event had there. *)
Example program_param_not_encoded :
  let jb := midi_event_to_jack (mkMidiEvent MIDI_EVENT_PROGRAM 0 5 3 9) [7; 7; 7] in
  jack_to_midi_event (mkMidiEvent MIDI_EVENT_NONE 0 0 0 0)
    (mk_jack_midi_event 0 2 (take (jb_len jb) (jb_data jb))) (jb_port jb)
  = Some (mkMidiEvent MIDI_EVENT_PROGRAM 0 5 0 9).
Proof. reflexivity. Qed.

(** The decoder reads a three-byte message whatever the bytes are. *)
Lemma decode_total (ev0 : MidiEvent) (t : Z) (n : nat) (s d1 d2 : Z) (p : Z) :
  exists ev,
    jack_to_midi_event ev0 (mk_jack_midi_event t n [s; d1; d2]) p = Some ev
    /\ port ev = p
    /\ channel ev = Z.land s 0x0f.
Proof.
  codec_unfold.
  repeat (destruct (_ =? _); [eexists; split; [reflexivity | split; reflexivity] |]).
  eexists; split; [reflexivity | split; reflexivity].
Qed.

(** C2, as the code has it.  For every raw wire input (any bytes 0..255
    for the status and the two data bytes) the decoder does not reject
    the message and masks the status byte only: the channel is the low
    nibble of the status byte, in 0..15.  The data bytes are copied
    unmasked: note and velocity, controller number and value are the two
    data bytes as they are, the program number is the first data byte,
    the pitch-bend value is [(data2 << 7 | data1) - 8192], and the unused
    parameter word is 0.  So the payload fields are in 0..255 (the
    pitch-bend value in -8192..24575), and every field is in its
    documented range whenever both data bytes are at most 127. *)
Theorem decode_field_ranges (ev0 : MidiEvent) (t : Z) (n : nat)
    (s d1 d2 : Z) (p : Z) :
  is_uchar s -> is_uchar d1 -> is_uchar d2 ->
  exists ev,
    jack_to_midi_event ev0 (mk_jack_midi_event t n [s; d1; d2]) p = Some ev
    /\ channel ev = Z.land s 0x0f
    /\ in_channel (channel ev) = true
    /\ match type ev with
       | MIDI_EVENT_NOTEON | MIDI_EVENT_NOTEOFF =>
           note_note ev = d1 /\ note_velocity ev = d2
       | MIDI_EVENT_CTRL => ctrl_param ev = d1 /\ ctrl_value ev = d2
       | MIDI_EVENT_PITCHBEND =>
           ctrl_param ev = 0
           /\ ctrl_value ev = Z.lor (Z.shiftl d2 7) d1 - 8192
       | MIDI_EVENT_PROGRAM => ctrl_param ev = 0 /\ ctrl_value ev = d1
       | MIDI_EVENT_NONE => data1 ev = data1 ev0 /\ data2 ev = data2 ev0
       end
    /\ (representable (type ev) = true ->
        0 <= data1 ev <= 255 /\ -8192 <= data2 ev <= 24575
        /\ (type ev <> MIDI_EVENT_PITCHBEND -> 0 <= data2 ev <= 255))
    /\ (d1 <= 127 -> d2 <= 127 -> in_range ev = true).
Proof.
  intros Hs H1 H2.
  pose proof (land_0x0f_range s) as Hch.
  pose proof (pitchbend_word_range d1 d2 H1 H2) as Hpb.
  unfold is_uchar in *.
  assert (in_channel (Z.land s 15) = true) as Hc by (apply in_channel_spec; lia).
  codec_unfold.
  destruct (_ =? 144); [| destruct (_ =? 128); [| destruct (_ =? 176);
    [| destruct (_ =? 224); [| destruct (_ =? 192)]]]];
    eexists; (split; [reflexivity |]);
    unfold in_range, payload_in_range, note_note, note_velocity,
      ctrl_param, ctrl_value;
    cbn [type channel data1 data2 representable];
    (split; [reflexivity |]); (split; [exact Hc |]);
    (split; [split; reflexivity |]).
  1-3: split; [intros _; repeat split; lia |];
       intros L1 L2; rewrite Hc; unfold in_7bit; lia.
  - split; [intros _; repeat split; try lia; intros E; contradiction |].
    intros L1 L2. rewrite Hc.
    rewrite lor_shiftl7 by lia. unfold in_pitchbend. lia.
  - split; [intros _; repeat split; lia |].
    intros L1 L2. rewrite Hc. unfold in_7bit. lia.
  - split; [intros E; discriminate E |].
    intros _ _. rewrite Hc. reflexivity.
Qed.

Lemma decode_field_ranges_witness :
  exists ev,
    jack_to_midi_event (mkMidiEvent MIDI_EVENT_NONE 0 0 0 0)
      (mk_jack_midi_event 0 3 [0xe3; 127; 127]) 0 = Some ev
    /\ channel ev = 3
    /\ in_range ev = true.
Proof.
  destruct (decode_field_ranges (mkMidiEvent MIDI_EVENT_NONE 0 0 0 0) 0 3
              0xe3 127 127 0) as (ev & Hev & Hch & _ & _ & _ & Hr);
    [unfold is_uchar; lia | unfold is_uchar; lia | unfold is_uchar; lia |].
  exists ev. split; [exact Hev |]. split; [exact Hch | apply Hr; lia].
Defined.

(** C2 as stated fails: the data bytes are not masked.  The message
    0x90 200 0 decodes to a note-on event with note number 200. *)
Lemma decode_does_not_mask_data :
  jack_to_midi_event (mkMidiEvent MIDI_EVENT_NONE 0 0 0 0)
    (mk_jack_midi_event 0 3 [0x90; 200; 0]) 0
  = Some (mkMidiEvent MIDI_EVENT_NOTEON 0 0 200 0)
  /\ in_range (mkMidiEvent MIDI_EVENT_NOTEON 0 0 200 0) = false
  /\ ~ (0 <= note_note (mkMidiEvent MIDI_EVENT_NOTEON 0 0 200 0) <= 127).
Proof.
  split; [reflexivity |]. split; [reflexivity |].
  unfold note_note. cbn. lia.
Qed.

Lemma encode_len_zero (ev : MidiEvent) (data : list Z) :
  jb_len (midi_event_to_jack ev data) = 0%nat <-> type ev = MIDI_EVENT_NONE.
Proof.
  unfold midi_event_to_jack, midi_event_to_jack_switch.
  destruct (type ev); cbn; split; intros E; try discriminate E; reflexivity.
Qed.

Lemma encode_first_byte (ev : MidiEvent) (a : Z) (rest : list Z) :
  jb_data (midi_event_to_jack ev (a :: rest)) !! 0%nat
  = Some (to_uchar (Z.lor (default a (status_base (type ev))) (channel ev))).
Proof.
  unfold midi_event_to_jack, midi_event_to_jack_switch, or_channel.
  destruct (type ev), rest as [| b [| d rest]]; reflexivity.
Qed.

(** C3, as the code has it.  For every event whose encoding has nonzero
    length, the status byte is the base of the variant (0x90 note on,
    0x80 note off, 0xB0 control change, 0xE0 pitch bend, 0xC0 program
    change) or-ed with the channel as it is, stored as a byte; the
    channel is not masked.  For a channel in 0..15 this is
    [base | (channel & 0x0F)], its low nibble is the channel and its high
    nibble the base. *)
Theorem encode_status_byte (ev : MidiEvent) (a : Z) (rest : list Z) :
  jb_len (midi_event_to_jack ev (a :: rest)) <> 0%nat ->
  exists base,
    status_base (type ev) = Some base
    /\ jb_data (midi_event_to_jack ev (a :: rest)) !! 0%nat
       = Some (to_uchar (Z.lor base (channel ev)))
    /\ (in_channel (channel ev) = true ->
        to_uchar (Z.lor base (channel ev)) = Z.lor base (Z.land (channel ev) 0x0f)
        /\ Z.land (to_uchar (Z.lor base (channel ev))) 0x0f = channel ev
        /\ Z.land (to_uchar (Z.lor base (channel ev))) 0xf0 = base).
Proof.
  intros Hlen.
  assert (type ev <> MIDI_EVENT_NONE) as Hty
    by (intros E; apply Hlen, encode_len_zero, E).
  rewrite encode_first_byte.
  destruct (status_base (type ev)) as [base |] eqn:Hbase;
    [| destruct (type ev); try discriminate Hbase; contradiction].
  exists base. split; [reflexivity |]. split; [reflexivity |].
  intros Hc.
  destruct (status_nibbles _ _ _ Hbase Hc) as (E1 & E2 & E3).
  assert (to_uchar base = base) as Eb
    by (destruct (type ev); inversion Hbase; reflexivity).
  rewrite Eb in E1. rewrite E1. auto.
Qed.

Lemma encode_status_byte_witness :
  exists base,
    status_base MIDI_EVENT_NOTEON = Some base
    /\ jb_data (midi_event_to_jack (mkMidiEvent MIDI_EVENT_NOTEON 0 5 60 100)
                  [7; 7; 7]) !! 0%nat
       = Some (to_uchar (Z.lor base 5))
    /\ to_uchar (Z.lor base 5) = 0x95.
Proof.
  destruct (encode_status_byte (mkMidiEvent MIDI_EVENT_NOTEON 0 5 60 100)
              7 [7; 7]) as (base & Hbase & Hdata & Hnib);
    [cbn; lia |].
  exists base. split; [exact Hbase |]. split; [exact Hdata |].
  cbn in Hbase. inversion Hbase. reflexivity.
Defined.

(** C3 as stated fails for a channel outside 0..15: a note-on event with
    channel 32 is encoded with the status byte 0xB0, not
    [0x90 | (32 & 0x0F)] = 0x90, and the high nibble is that of a control
    change. *)
Lemma encode_does_not_mask_channel :
  let ev := mkMidiEvent MIDI_EVENT_NOTEON 0 32 60 100 in
  let jb := midi_event_to_jack ev [0; 0; 0] in
  jb_len jb = 3%nat
  /\ jb_data jb !! 0%nat = Some 0xb0
  /\ Z.lor 0x90 (Z.land (channel ev) 0x0f) = 0x90
  /\ Z.land 0xb0 0xf0 <> 0x90.
Proof. cbn. repeat split; try reflexivity. discriminate. Qed.

(** C4.  The pitch-bend mapping at its end points and centre: the values
    -8192, 0 and 8191 are encoded with the data bytes (0,0), (0,64) and
    (127,127); a pitch-bend message with data bytes (0,0) decodes to
    -8192 and one with (127,127) to 8191. *)
Theorem pitchbend_endpoints :
  (forall (p c prm a b d : Z),
     let enc v :=
       jb_data (midi_event_to_jack (mkMidiEvent MIDI_EVENT_PITCHBEND p c prm v)
                  [a; b; d]) in
     (enc (-8192) !! 1%nat = Some 0 /\ enc (-8192) !! 2%nat = Some 0)
     /\ (enc 0 !! 1%nat = Some 0 /\ enc 0 !! 2%nat = Some 64)
     /\ (enc 8191 !! 1%nat = Some 127 /\ enc 8191 !! 2%nat = Some 127))
  /\ (forall (ev0 : MidiEvent) (t : Z) (n : nat) (s p : Z),
        Z.land s 0xf0 = 0xe0 ->
        ctrl_value <$> jack_to_midi_event ev0 (mk_jack_midi_event t n [s; 0; 0]) p
        = Some (-8192)
        /\ ctrl_value <$>
             jack_to_midi_event ev0 (mk_jack_midi_event t n [s; 127; 127]) p
           = Some 8191).
Proof.
  split.
  - intros p c prm a b d. repeat split; reflexivity.
  - intros ev0 t n s p Hs. codec_unfold. rewrite Hs. split; reflexivity.
Qed.

Lemma pitchbend_endpoints_witness :
  ctrl_value <$>
    jack_to_midi_event (mkMidiEvent MIDI_EVENT_NONE 0 0 0 0)
      (mk_jack_midi_event 0 3 [0xe2; 0; 0]) 0 = Some (-8192)
  /\ ctrl_value <$>
       jack_to_midi_event (mkMidiEvent MIDI_EVENT_NONE 0 0 0 0)
         (mk_jack_midi_event 0 3 [0xe2; 127; 127]) 0 = Some 8191.
Proof.
  exact (proj2 pitchbend_endpoints (mkMidiEvent MIDI_EVENT_NONE 0 0 0 0)
           0 3%nat 0xe2 0 eq_refl).
Defined.

(** C9.  For every event, those of type none with encoded length 0
    included, the encoder sets the returned port to the port of the event
    and or-s the channel into the first byte of the array: into the base
    the switch stored there for a representable variant, and into the
    byte the caller's array already held when the length is 0. *)
Theorem encode_port_and_channel :
  (forall (ev : MidiEvent) (a : Z) (rest : list Z),
     let jb := midi_event_to_jack ev (a :: rest) in
     jb_port jb = port ev
     /\ jb_data jb !! 0%nat
        = Some (to_uchar (Z.lor (default a (status_base (type ev))) (channel ev))))
  /\ (forall (p c d1 d2 a : Z) (rest : list Z),
        midi_event_to_jack (mkMidiEvent MIDI_EVENT_NONE p c d1 d2) (a :: rest)
        = mk_jack_bytes (to_uchar (Z.lor a c) :: rest) 0 p).
Proof.
  split.
  - intros ev a rest. split; [| apply encode_first_byte].
    unfold midi_event_to_jack.
    destruct (midi_event_to_jack_switch ev (a :: rest)). reflexivity.
  - intros p c d1 d2 a rest. reflexivity.
Qed.

(** ** The process callback *)

Lemma count_writes_app (l1 l2 : list jack_call) :
  count_writes (l1 ++ l2) = (count_writes l1 + count_writes l2)%nat.
Proof. unfold count_writes. rewrite List.filter_app, length_app. reflexivity. Qed.

Lemma count_writes_clear (ports : list Z) : count_writes (process_clear ports) = 0%nat.
Proof. induction ports as [| h ports IH]; [reflexivity | exact IH]. Qed.

Lemma process_in_events_frame ev0 n evs b b' :
  process_in_events ev0 n evs b = Some b' ->
  _out_rb b' = _out_rb b /\ _out_ports b' = _out_ports b.
Proof.
  revert b. induction evs as [| jack_ev evs IH]; intros b Hrun; cbn in Hrun.
  - inversion Hrun. auto.
  - destruct (jack_to_midi_event ev0 jack_ev (Z.of_nat n)) as [ev |];
      [| discriminate Hrun].
    cbn in Hrun. apply IH in Hrun. exact Hrun.
Qed.

Lemma process_in_ports_frame ev0 port_buffer ports : forall n b b',
  process_in_ports ev0 port_buffer n ports b = Some b' ->
  _out_rb b' = _out_rb b /\ _out_ports b' = _out_ports b.
Proof.
  induction ports as [| h ports IH]; intros n b b' Hrun; cbn in Hrun.
  - inversion Hrun. auto.
  - destruct (process_in_events ev0 n (port_buffer n) b) as [b1 |] eqn:Hin;
      [| discriminate Hrun].
    cbn in Hrun. apply process_in_events_frame in Hin as [Hrb Hports].
    apply IH in Hrun as [Hrb' Hports'].
    rewrite Hrb', Hports'.
    destruct (length (port_buffer n) =? 0)%nat; auto.
Qed.

(** The drain loop issues one write for every queued event that has an
    encoding, none for the others, and leaves the queue empty. *)
Lemma process_out_writes ev0 uninit : forall fuel b calls b' calls',
  process_out fuel ev0 uninit b calls = Some (b', calls') ->
  count_writes calls'
  = (count_writes calls
     + length (List.filter has_encoding (ringbuffer.items (_out_rb b))))%nat
  /\ ringbuffer.items (_out_rb b') = [].
Proof.
  induction fuel as [| fuel IH]; intros b calls b' calls' Hrun;
    cbn [process_out] in Hrun;
    unfold ringbuffer.read_space, ringbuffer.read_into, ringbuffer.read in Hrun;
    destruct b as [cl ip op irb [cap its] mu co]; cbn in Hrun;
    destruct its as [| ev its]; cbn in Hrun;
    try (inversion Hrun; subst; cbn; split; [lia | reflexivity]);
    try discriminate Hrun.
  cbn [_out_rb ringbuffer.items List.filter].
  unfold has_encoding at 1.
  destruct (jb_len (midi_event_to_jack ev (uninit (S fuel))) =? 0)%nat eqn:Hlen.
  - apply Nat.eqb_eq, encode_len_zero in Hlen. rewrite Hlen. cbn.
    apply IH in Hrun. exact Hrun.
  - apply Nat.eqb_neq in Hlen.
    assert (representable (type ev) = true) as ->.
    { destruct (type ev) eqn:Hty; try reflexivity.
      exfalso. apply Hlen, encode_len_zero, Hty. }
    destruct (vector_at _ _) as [port_handle |]; [| discriminate Hrun].
    cbn in Hrun. apply IH in Hrun as [Hcount Hempty].
    split; [| exact Hempty].
    rewrite Hcount, count_writes_app. cbn. lia.
Qed.

Lemma process_writes ev0 port_buffer uninit b b' calls :
  process ev0 port_buffer uninit b = Some (b', calls) ->
  count_writes calls
  = length (List.filter has_encoding (ringbuffer.items (_out_rb b))).
Proof.
  unfold process. intros Hrun.
  destruct (process_in_ports ev0 port_buffer 0 (_in_ports b) b) as [b1 |] eqn:Hin;
    [| discriminate Hrun].
  cbn in Hrun. apply process_in_ports_frame in Hin as [Hrb Hports].
  apply process_out_writes in Hrun as [Hcount _].
  rewrite Hcount, count_writes_clear, Hrb. reflexivity.
Qed.

(** C5.  A status byte whose high nibble is none of 0x90, 0x80, 0xB0,
    0xE0, 0xC0 decodes to an event of type none, not to a failure; an
    event of type none is encoded with length 0; and the process callback
    writes to a port buffer once for every queued event that has an
    encoding and not at all for the others. *)
Theorem unrecognised_status_is_none :
  (forall (ev0 : MidiEvent) (jack_ev : jack_midi_event_t) (p s : Z),
     buffer jack_ev !! 0%nat = Some s ->
     Z.land s 0xf0 ∉ [0x90; 0x80; 0xb0; 0xe0; 0xc0] ->
     exists ev, jack_to_midi_event ev0 jack_ev p = Some ev
                /\ type ev = MIDI_EVENT_NONE)
  /\ (forall (ev : MidiEvent) (data : list Z),
        type ev = MIDI_EVENT_NONE ->
        jb_len (midi_event_to_jack ev data) = 0%nat)
  /\ (forall ev0 port_buffer uninit (b b' : BackendJack) calls,
        process ev0 port_buffer uninit b = Some (b', calls) ->
        count_writes calls
        = length (List.filter has_encoding (ringbuffer.items (_out_rb b)))).
Proof.
  split; [| split].
  - intros ev0 jack_ev p s Hs Hnot.
    unfold jack_to_midi_event. rewrite Hs.
    cbn -[Z.land Z.eqb Z.lor Z.shiftl].
    repeat match goal with
    | |- context [Z.land s 240 =? ?k] =>
        destruct (Z.eqb_spec (Z.land s 240) k) as [E | _];
        [exfalso; apply Hnot; rewrite E; repeat constructor |]
    end.
    eexists. split; reflexivity.
  - intros ev data Hty. apply encode_len_zero, Hty.
  - apply process_writes.
Qed.

Lemma unrecognised_status_is_none_witness :
  let ev0 := mkMidiEvent MIDI_EVENT_NONE 0 0 0 0 in
  let none := mkMidiEvent MIDI_EVENT_NONE 0 4 0 0 in
  let note := mkMidiEvent MIDI_EVENT_NOTEON 0 3 60 100 in
  let b := mkBackendJack 5 [11] [12] (ringbuffer.create 4)
             (ringbuffer.mk 4 [none; note; none]) false 0 in
  (exists ev, jack_to_midi_event ev0 (mk_jack_midi_event 0 3 [0xa0; 60; 100]) 0
              = Some ev /\ type ev = MIDI_EVENT_NONE)
  /\ jb_len (midi_event_to_jack none [7; 7; 7]) = 0%nat
  /\ match process ev0 (fun _ => [mk_jack_midi_event 0 3 [0xa0; 60; 100]])
             (fun _ => [7; 7; 7]) b with
     | Some (_, calls) => count_writes calls = 1%nat
     | None => False
     end.
Proof.
  intros ev0 none note b.
  destruct unrecognised_status_is_none as (Hdec & Henc & Hproc).
  split; [| split].
  - apply (Hdec ev0 (mk_jack_midi_event 0 3 [0xa0; 60; 100]) 0 0xa0 eq_refl).
    cbn. intros Hin. repeat (apply elem_of_cons in Hin as [Hin | Hin];
                             [discriminate Hin |]).
    apply elem_of_nil in Hin. exact Hin.
  - apply Henc. reflexivity.
  - destruct (process ev0 _ _ b) as [[b' calls] |] eqn:Hrun;
      [| vm_compute in Hrun; discriminate Hrun].
    apply Hproc in Hrun. exact Hrun.
Defined.

(** *** The callback returns on well-formed input *)

Lemma decode_complete (ev0 : MidiEvent) (jack_ev : jack_midi_event_t) (p : Z) :
  (3 <= length (buffer jack_ev))%nat ->
  is_Some (jack_to_midi_event ev0 jack_ev p).
Proof.
  destruct jack_ev as [t n buf]. cbn [buffer]. intros Hlen.
  destruct buf as [| s [| d1 [| d2 rest]]]; cbn in Hlen; try lia.
  codec_unfold.
  repeat (destruct (_ =? _); [eexists; reflexivity |]).
  eexists; reflexivity.
Qed.

Lemma process_in_events_returns ev0 n evs : forall b,
  Forall (fun jack_ev => (3 <= length (buffer jack_ev))%nat) evs ->
  is_Some (process_in_events ev0 n evs b).
Proof.
  induction evs as [| jack_ev evs IH]; intros b Hevs; cbn.
  - eexists; reflexivity.
  - inversion Hevs as [| ? ? Hhead Htail]; subst.
    destruct (decode_complete ev0 jack_ev (Z.of_nat n) Hhead) as [ev ->].
    cbn. apply IH, Htail.
Qed.

Lemma process_in_ports_returns ev0 port_buffer ports : forall n b,
  (forall k, Forall (fun jack_ev => (3 <= length (buffer jack_ev))%nat)
               (port_buffer k)) ->
  is_Some (process_in_ports ev0 port_buffer n ports b).
Proof.
  induction ports as [| h ports IH]; intros n b Hbuf; cbn.
  - eexists; reflexivity.
  - destruct (process_in_events_returns ev0 n (port_buffer n) b (Hbuf n))
      as [b1 ->].
    cbn. apply IH, Hbuf.
Qed.

Lemma process_out_returns ev0 uninit : forall fuel b calls,
  (ringbuffer.read_space (_out_rb b) <= fuel)%nat ->
  Forall (port_valid (_out_ports b)) (ringbuffer.items (_out_rb b)) ->
  is_Some (process_out fuel ev0 uninit b calls).
Proof.
  induction fuel as [| fuel IH]; intros b calls Hfuel Hports;
    destruct b as [cl ip op irb [cap its] mu co];
    unfold ringbuffer.read_space in Hfuel; cbn in Hfuel, Hports;
    cbn [process_out];
    unfold ringbuffer.read_space, ringbuffer.read_into, ringbuffer.read;
    cbn [_out_rb ringbuffer.items ringbuffer.capacity];
    destruct its as [| ev its]; cbn in Hfuel |- *;
    try (eexists; reflexivity); try lia.
  inversion Hports as [| ? ? Hev Hrest]; subst.
  destruct (jb_len (midi_event_to_jack ev (uninit (S fuel))) =? 0)%nat eqn:Hlen.
  - apply IH; cbn; [unfold ringbuffer.read_space; cbn; lia | exact Hrest].
  - assert (has_encoding ev = true) as Henc.
    { unfold has_encoding. destruct (type ev) eqn:Hty; try reflexivity.
      apply Nat.eqb_neq in Hlen. exfalso. apply Hlen, encode_len_zero, Hty. }
    replace (jb_port (midi_event_to_jack ev (uninit (S fuel)))) with (port ev)
      by (unfold midi_event_to_jack;
          destruct (midi_event_to_jack_switch ev (uninit (S fuel))); reflexivity).
    destruct (Hev Henc) as [port_handle ->]. cbn.
    apply IH; cbn; [unfold ringbuffer.read_space; cbn; lia | exact Hrest].
Qed.

(** The callback returns when every incoming message has its three bytes
    and every queued event that is going to be written names an output
    port. *)
Lemma process_returns ev0 port_buffer uninit (b : BackendJack) :
  (forall k, Forall (fun jack_ev => (3 <= length (buffer jack_ev))%nat)
               (port_buffer k)) ->
  Forall (port_valid (_out_ports b)) (ringbuffer.items (_out_rb b)) ->
  is_Some (process ev0 port_buffer uninit b).
Proof.
  intros Hbuf Hports. unfold process.
  destruct (process_in_ports_returns ev0 port_buffer (_in_ports b) 0 b Hbuf)
    as [b1 Hin].
  rewrite Hin. cbn.
  apply process_in_ports_frame in Hin as [Hrb Hop].
  apply process_out_returns; [lia |]. rewrite Hrb, Hop. exact Hports.
Qed.

(** ** The constructor *)

Lemma no_failed_call_snoc (l : list lib_call) (c : lib_call) :
  no_failed_call l -> call_failed c = false -> no_failed_call (l ++ [c]).
Proof.
  unfold no_failed_call. intros Hl Hc.
  rewrite existsb_app, Hl. cbn. rewrite Hc. reflexivity.
Qed.

Section ConstructorProofs.

Context {L : Type} `{JackLibrary L}.

Lemma throws_on_failure_ret {A} (a : A) : throws_on_failure (L := L) (ret a).
Proof. intros w Hw. exact Hw. Qed.

Lemma throws_on_failure_bind {A B} (m : M L A) (k : A -> M L B) :
  throws_on_failure m -> (forall a, throws_on_failure (k a)) ->
  throws_on_failure (bind m k).
Proof.
  intros Hm Hk w Hw. unfold bind. specialize (Hm w Hw).
  destruct (m w) as [[e | a] w']; [exact Hm |].
  apply Hk, Hm.
Qed.

(** A library call followed by the test of its result. *)
Lemma throws_on_failure_call {A} (f : L -> Z * L) (entry : Z -> lib_call)
    (k : Z -> M L A) :
  (forall r, call_failed (entry r) = true ->
             k r = throw (mkBackendError (error_message (entry r)))) ->
  (forall r, call_failed (entry r) = false -> throws_on_failure (k r)) ->
  throws_on_failure (bind (lib_call_of f entry) k).
Proof.
  intros Hfail Hok w Hw. unfold bind, lib_call_of.
  destruct (f (lib w)) as [r s].
  destruct (call_failed (entry r)) eqn:Hr.
  - rewrite (Hfail r Hr). unfold throw.
    exists (log w), (entry r). cbn. auto.
  - apply (Hok r Hr). cbn. apply no_failed_call_snoc; assumption.
Qed.

Lemma register_ports_throws (client : Z) (flags : JackPortFlags)
    (what : string) (names : list string) :
  (forall name r, error_message (Call_port_register client name flags r) = what) ->
  forall n ports,
    throws_on_failure (register_ports client flags what names n ports).
Proof.
  intros Hwhat.
  induction names as [| name names IH]; intros n ports; cbn [register_ports].
  - apply throws_on_failure_ret.
  - apply throws_on_failure_call; intros r Hr; cbn in Hr; rewrite Hr.
    + rewrite Hwhat. reflexivity.
    + apply IH.
Qed.

Lemma BackendJack_new_throws (max : nat) (client_name : string)
    (in_portnames out_portnames : list string) :
  throws_on_failure
    (BackendJack_new max client_name in_portnames out_portnames).
Proof.
  unfold BackendJack_new.
  apply throws_on_failure_call; intros client Hclient; cbn in Hclient;
    rewrite Hclient; [reflexivity |].
  apply throws_on_failure_call; intros r Hr; [discriminate Hr |].
  apply throws_on_failure_bind;
    [apply register_ports_throws; intros; reflexivity |].
  intros in_ports.
  apply throws_on_failure_bind;
    [apply register_ports_throws; intros; reflexivity |].
  intros out_ports.
  apply throws_on_failure_call; intros failed Hfailed; cbn in Hfailed;
    rewrite Hfailed; [reflexivity |].
  apply throws_on_failure_ret.
Qed.

End ConstructorProofs.

(** C6, as the code has it.  Under the assertions at its head, the
    constructor throws a [BackendError] exactly when a call to the
    library failed: the client could not be opened, an input or output
    port registration returned a null handle, or the activation returned
    non-zero.  It throws right after that call, and the message is
    "can't connect to jack server" for the client, "error creating input
    port" or "error creating output port" for a port, and "can't activate
    client" for the activation. *)
Theorem constructor_throws_exactly {L : Type} `{JackLibrary L} (max : nat)
    (client_name : string) (in_portnames out_portnames : list string) (s : L) :
  constructor_requires client_name in_portnames out_portnames ->
  let r := construct max client_name in_portnames out_portnames s in
  ((exists e, r.1 = inl e) <-> existsb call_failed (log r.2) = true)
  /\ (forall e, r.1 = inl e ->
        exists c, last (log r.2) = Some c
                  /\ call_failed c = true
                  /\ e = mkBackendError (error_message c)).
Proof.
  intros _ r.
  pose proof (BackendJack_new_throws max client_name in_portnames out_portnames
                (mk_world s []) eq_refl) as Hnew.
  unfold r, construct.
  destruct (BackendJack_new _ _ _ _ _) as [[e | b] w]; cbn [fst snd].
  - destruct Hnew as (pre & c & Hlog & Hpre & Hc & He).
    split.
    + split; [| eauto]. intros _.
      rewrite Hlog, existsb_app. cbn. rewrite Hc. apply orb_true_iff. auto.
    + intros e' He'. inversion He'; subst e'.
      exists c. rewrite Hlog, last_snoc. auto.
  - split.
    + split; [intros [e He]; discriminate He |].
      unfold no_failed_call in Hnew. rewrite Hnew. discriminate.
    + intros e He. discriminate He.
Qed.

Lemma constructor_throws_exactly_witness :
  let r := construct (H := scripted_library) 16 "mididings"
             ["in_1"; "in_2"] ["out_1"] [5; 0; 11; 0] in
  r.1 = inl (mkBackendError "error creating input port")
  /\ existsb call_failed (log r.2) = true
  /\ exists c, last (log r.2) = Some c
               /\ call_failed c = true
               /\ error_message c = "error creating input port".
Proof.
  pose proof (constructor_throws_exactly (H := scripted_library) 16 "mididings"
                ["in_1"; "in_2"] ["out_1"] [5; 0; 11; 0]) as Hthm.
  cbv zeta in Hthm.
  destruct Hthm as [Hiff Hmsg];
    [repeat split; discriminate |].
  split; [reflexivity |].
  split; [apply Hiff; eexists; reflexivity |].
  destruct (Hmsg (mkBackendError "error creating input port") eq_refl)
    as (c & Hlast & Hfailed & He).
  exists c. split; [exact Hlast |]. split; [exact Hfailed |].
  inversion He. reflexivity.
Defined.

(** C6 as stated fails on the message for the client: when the client
    cannot be opened the constructor throws "can't connect to jack
    server", not "can't connect to device server". *)
Lemma constructor_open_message :
  let r := construct (H := scripted_library) 16 "mididings"
             ["in_1"] ["out_1"] [0] in
  log r.2 = [Call_client_open "mididings" 0]
  /\ r.1 = inl (mkBackendError "can't connect to jack server")
  /\ r.1 <> inl (mkBackendError
                   (documented_message (Call_client_open "mididings" 0))).
Proof. cbn. repeat split. discriminate. Qed.

(** A construction that succeeds, and one where the activation fails. *)
Example constructor_succeeds :
  (construct (H := scripted_library) 16 "mididings" ["in_1"] ["out_1"; "out_2"]
     [5; 0; 11; 12; 13; 0]).1
  = inr (mkBackendJack 5 [11] [12; 13] (ringbuffer.create 16)
           (ringbuffer.create 16) false 0).
Proof. reflexivity. Qed.

Example constructor_activation_fails :
  (construct (H := scripted_library) 16 "mididings" ["in_1"] ["out_1"]
     [5; 0; 11; 12; 1]).1
  = inl (mkBackendError "can't activate client").
Proof. reflexivity. Qed.

(** ** The operations of the application thread *)

Lemma write_items (ev : MidiEvent) (rb : ringbuffer.t) :
  ringbuffer.items (ringbuffer.write ev rb) = ringbuffer.items rb
  \/ ringbuffer.items (ringbuffer.write ev rb) = ringbuffer.items rb ++ [ev].
Proof.
  unfold ringbuffer.write.
  destruct (_ <? _)%nat; [right | left]; reflexivity.
Qed.

Lemma wake_in_items (c : system) : in_items (wake c) = in_items c.
Proof. unfold wake. destruct (pc c); reflexivity. Qed.

Lemma step_read_enabled (ev_in : MidiEvent) (a : action) (c : system) :
  read_enabled c -> read_enabled (step ev_in a c).
Proof.
  unfold read_enabled, in_items. intros Hc.
  destruct c as [b p]; cbn [pc backend] in *.
  destruct a; cbn [step].
  - unfold app_step. cbn [pc backend].
    destruct p; cbn [pc backend]; try exact Hc; try discriminate.
    + unfold ringbuffer.read_space.
      destruct (ringbuffer.items (_in_rb b)) eqn:Hitems; cbn;
        [discriminate | intros _; rewrite Hitems; discriminate].
    + destruct (_mutex b); cbn; discriminate.
    + destruct (_mutex b); cbn; discriminate.
    + destruct (ringbuffer.read_into ev_in (_in_rb b)). cbn. discriminate.
  - cbn. intros Hp. specialize (Hc Hp).
    destruct (write_items ev (_in_rb b)) as [-> | ->]; [exact Hc |].
    intros Happ. apply app_eq_nil in Happ as [_ Hnil]. discriminate Hnil.
  - destruct p; cbn; try discriminate; exact Hc.
  - unfold wake. destruct p; cbn; try discriminate; exact Hc.
Qed.

Lemma run_snoc (ev_in : MidiEvent) (sched : list action) (a : action) :
  forall c, run ev_in (sched ++ [a]) c = step ev_in a (run ev_in sched c).
Proof.
  induction sched as [| a' sched IH]; intros c; cbn; [reflexivity | apply IH].
Qed.

Lemma run_read_enabled (ev_in : MidiEvent) (sched : list action) :
  forall c, read_enabled c -> read_enabled (run ev_in sched c).
Proof.
  induction sched as [| a sched IH]; intros c Hc; cbn; [exact Hc |].
  apply IH, step_read_enabled, Hc.
Qed.

Lemma run_app (ev_in : MidiEvent) (s1 s2 : list action) :
  forall c, run ev_in (s1 ++ s2) c = run ev_in s2 (run ev_in s1 c).
Proof.
  induction s1 as [| a s1 IH]; intros c; cbn; [reflexivity | apply IH].
Qed.

(** The input half of the callback is a sequence of actions of the
    realtime thread: what [process] does to the backend is what the
    schedule does, whatever the application thread is at. *)
Lemma process_in_events_schedule ev0 n evs : forall b b',
  process_in_events ev0 n evs b = Some b' ->
  exists sched, forallb is_rt_action sched = true
    /\ forall ev_in p, backend (run ev_in sched (mk_system b p)) = b'.
Proof.
  induction evs as [| jack_ev evs IH]; intros b b' Hrun; cbn in Hrun.
  - inversion Hrun. exists []. split; reflexivity.
  - destruct (jack_to_midi_event ev0 jack_ev (Z.of_nat n)) as [ev |];
      [| discriminate Hrun].
    cbn in Hrun. destruct (IH _ _ Hrun) as (sched & Hrt & Hsched).
    exists (Rt_write ev :: sched). split; [exact Hrt |].
    intros ev_in p. cbn. apply Hsched.
Qed.

Lemma process_in_ports_schedule ev0 port_buffer ports : forall n b b',
  process_in_ports ev0 port_buffer n ports b = Some b' ->
  exists sched, forallb is_rt_action sched = true
    /\ forall ev_in p, backend (run ev_in sched (mk_system b p)) = b'.
Proof.
  induction ports as [| h ports IH]; intros n b b' Hrun; cbn in Hrun.
  - inversion Hrun. exists []. split; reflexivity.
  - destruct (process_in_events ev0 n (port_buffer n) b) as [b1 |] eqn:Hin;
      [| discriminate Hrun].
    cbn in Hrun.
    destruct (process_in_events_schedule _ _ _ _ _ Hin) as (s1 & Hrt1 & Hs1).
    destruct (IH _ _ _ Hrun) as (s2 & Hrt2 & Hs2).
    destruct (length (port_buffer n) =? 0)%nat.
    + exists (s1 ++ s2). split; [rewrite forallb_app, Hrt1, Hrt2; reflexivity |].
      intros ev_in p. rewrite run_app.
      specialize (Hs1 ev_in p).
      destruct (run ev_in s1 (mk_system b p)) as [b1' p1]. cbn in Hs1. subst b1'.
      apply Hs2.
    + exists (s1 ++ Rt_notify :: s2).
      split; [rewrite forallb_app, Hrt1; cbn; rewrite Hrt2; reflexivity |].
      intros ev_in p. rewrite run_app.
      specialize (Hs1 ev_in p).
      destruct (run ev_in s1 (mk_system b p)) as [b1' p1]. cbn in Hs1. subst b1'.
      cbn [run step pc backend]. unfold wake. cbn [pc backend].
      destruct p1; apply Hs2.
Qed.

Lemma process_out_frame ev0 uninit : forall fuel b calls b' calls',
  process_out fuel ev0 uninit b calls = Some (b', calls') ->
  _in_rb b' = _in_rb b /\ _cond b' = _cond b.
Proof.
  induction fuel as [| fuel IH]; intros b calls b' calls' Hrun;
    cbn [process_out] in Hrun;
    destruct (ringbuffer.read_space (_out_rb b) =? 0)%nat;
    try (inversion Hrun; subst; auto; fail); try discriminate Hrun.
  destruct (ringbuffer.read_into ev0 (_out_rb b)) as [ev rb].
  destruct (jb_len _ =? 0)%nat.
  - apply IH in Hrun. exact Hrun.
  - destruct (vector_at _ _); [| discriminate Hrun].
    cbn in Hrun. apply IH in Hrun. exact Hrun.
Qed.

Lemma process_is_realtime_schedule ev0 port_buffer uninit b b' calls :
  process ev0 port_buffer uninit b = Some (b', calls) ->
  exists sched, forallb is_rt_action sched = true
    /\ forall ev_in p,
         _in_rb (backend (run ev_in sched (mk_system b p))) = _in_rb b'
         /\ _cond (backend (run ev_in sched (mk_system b p))) = _cond b'.
Proof.
  unfold process. intros Hrun.
  destruct (process_in_ports ev0 port_buffer 0 (_in_ports b) b) as [b1 |] eqn:Hin;
    [| discriminate Hrun].
  cbn in Hrun. apply process_out_frame in Hrun as [Hrb Hcond].
  destruct (process_in_ports_schedule _ _ _ _ _ _ Hin) as (sched & Hrt & Hsched).
  exists sched. split; [exact Hrt |].
  intros ev_in p. rewrite Hsched, Hrb, Hcond. auto.
Qed.


(** Without a write, a thread that waits for data keeps waiting: the
    queue stays empty and the thread stays inside the loop. *)
Lemma step_waiting (ev_in : MidiEvent) (a : action) (c : system) :
  is_rt_write a = false ->
  waiting_for_data c -> waiting_for_data (step ev_in a c).
Proof.
  unfold waiting_for_data, returned, in_items.
  destruct c as [b p]; cbn [pc backend]. intros Ha (Hempty & Hread & Hret).
  destruct a; try discriminate Ha; cbn [step].
  - unfold app_step. cbn [pc backend].
    destruct p; cbn [pc backend]; try contradiction; try discriminate Hret.
    + unfold ringbuffer.read_space. rewrite Hempty. cbn.
      repeat split; [assumption | discriminate].
    + destruct (_mutex b); cbn; repeat split; try assumption; discriminate.
    + cbn; repeat split; try assumption; discriminate.
    + cbn; repeat split; try assumption; discriminate.
    + destruct (_mutex b); cbn; repeat split; try assumption; discriminate.
    + cbn; repeat split; try assumption; discriminate.
  - destruct p; cbn; repeat split; try assumption; try discriminate.
  - unfold wake. cbn [pc backend].
    destruct p; cbn; repeat split; try assumption; try discriminate.
Qed.

Lemma run_waiting (ev_in : MidiEvent) (sched : list action) :
  forall c, existsb is_rt_write sched = false ->
            waiting_for_data c -> waiting_for_data (run ev_in sched c).
Proof.
  induction sched as [| a sched IH]; intros c Hs Hc; cbn in *; [exact Hc |].
  apply orb_false_iff in Hs as [Ha Hs].
  apply IH; [exact Hs |]. apply step_waiting; assumption.
Qed.




(** C8.  [flush_output] does nothing: for every state of the backend the
    state after the call is the state before it; both queues, the port
    vectors, the client handle, the mutex and the condition variable are
    what they were. *)
Theorem flush_output_unchanged (b : BackendJack) :
  flush_output b = b
  /\ _in_rb (flush_output b) = _in_rb b
  /\ _out_rb (flush_output b) = _out_rb b
  /\ _in_ports (flush_output b) = _in_ports b
  /\ _out_ports (flush_output b) = _out_ports b
  /\ _client (flush_output b) = _client b
  /\ _mutex (flush_output b) = _mutex b
  /\ _cond (flush_output b) = _cond b.
Proof. unfold flush_output. repeat split. Qed.

(** C10.  [drop_input] touches the inbound queue only: the outbound
    queue, the port vectors, the client handle, the mutex and the
    condition variable are unchanged, and the inbound queue is the old
    one after a reset, that is empty and of the same capacity. *)
Theorem drop_input_frame (b : BackendJack) :
  _out_rb (drop_input b) = _out_rb b
  /\ _in_ports (drop_input b) = _in_ports b
  /\ _out_ports (drop_input b) = _out_ports b
  /\ _client (drop_input b) = _client b
  /\ _mutex (drop_input b) = _mutex b
  /\ _cond (drop_input b) = _cond b
  /\ _in_rb (drop_input b) = ringbuffer.reset (_in_rb b)
  /\ ringbuffer.read_space (_in_rb (drop_input b)) = 0%nat
  /\ ringbuffer.capacity (_in_rb (drop_input b)) = ringbuffer.capacity (_in_rb b).
Proof. unfold drop_input. repeat split. Qed.

Example drop_input_example :
  let ev := mkMidiEvent MIDI_EVENT_NOTEON 0 3 60 100 in
  let b := mkBackendJack 5 [11] [12] (ringbuffer.mk 4 [ev; ev])
             (ringbuffer.mk 4 [ev]) false 0 in
  drop_input b
  = mkBackendJack 5 [11] [12] (ringbuffer.mk 4 []) (ringbuffer.mk 4 [ev]) false 0.
Proof. reflexivity. Qed.

(** * Further properties of the backend *)

(** ** The decoder *)

(** The decoder stays inside the message exactly when the message has the
    bytes its status byte asks for: three for note on, note off, control
    change and pitch bend, two for a program change, one for anything
    else.  A two-byte program change is decoded without a read past its
    end. *)
Theorem decode_reads_within_bounds (ev0 : MidiEvent)
    (jack_ev : jack_midi_event_t) (p : Z) :
  is_Some (jack_to_midi_event ev0 jack_ev p)
  <-> exists s, buffer jack_ev !! 0%nat = Some s
                /\ (bytes_read s <= length (buffer jack_ev))%nat.
Proof.
  destruct jack_ev as [t n buf]. cbn [buffer].
  unfold jack_to_midi_event, bytes_read. cbn [buffer].
  destruct buf as [| s buf].
  - cbn. split; [intros [ev Hev]; discriminate Hev |].
    intros (s & Hs & _). discriminate Hs.
  - cbn -[Z.land Z.eqb Z.lor Z.shiftl Z.sub].
    split.
    + intros Hsome. exists s. split; [reflexivity |].
      destruct (Z.land s 240 =? 144), (Z.land s 240 =? 128),
        (Z.land s 240 =? 176), (Z.land s 240 =? 224), (Z.land s 240 =? 192);
        cbn -[Z.lor Z.shiftl Z.sub] in Hsome |- *;
        destruct buf as [| d1 [| d2 rest]];
        cbn -[Z.lor Z.shiftl Z.sub] in Hsome |- *;
        try lia; destruct Hsome as [ev Hev]; discriminate Hev.
    + intros (s' & Hs & Hlen). inversion Hs; subst s'. clear Hs.
      destruct (Z.land s 240 =? 144), (Z.land s 240 =? 128),
        (Z.land s 240 =? 176), (Z.land s 240 =? 224), (Z.land s 240 =? 192);
        cbn -[Z.lor Z.shiftl Z.sub] in Hlen |- *;
        destruct buf as [| d1 [| d2 rest]];
        cbn -[Z.lor Z.shiftl Z.sub] in Hlen |- *;
        try lia; eexists; reflexivity.
Qed.

(** The decoded event carries the port it was read from, the low nibble
    of the status byte as its channel, and the variant of the high
    nibble: the base status of the variant is the high nibble, and the
    type is none exactly for the other high nibbles, in which case the
    payload is the one of the default event. *)
Theorem decode_classifies (ev0 : MidiEvent) (jack_ev : jack_midi_event_t)
    (p : Z) (ev : MidiEvent) :
  jack_to_midi_event ev0 jack_ev p = Some ev ->
  exists s,
    buffer jack_ev !! 0%nat = Some s
    /\ port ev = p
    /\ channel ev = Z.land s 0x0f
    /\ match status_base (type ev) with
       | Some base => Z.land s 0xf0 = base
       | None =>
           (Z.land s 0xf0 ∉ [0x90; 0x80; 0xb0; 0xe0; 0xc0])
           /\ data1 ev = data1 ev0 /\ data2 ev = data2 ev0
       end.
Proof.
  destruct jack_ev as [t n buf]. unfold jack_to_midi_event. cbn [buffer].
  destruct buf as [| s buf]; [intros Hev; discriminate Hev |].
  cbn -[Z.land Z.eqb Z.lor Z.shiftl Z.sub].
  intros Hev. exists s. split; [reflexivity |].
  destruct (Z.eqb_spec (Z.land s 240) 144) as [E1 | N1];
    [| destruct (Z.eqb_spec (Z.land s 240) 128) as [E2 | N2];
       [| destruct (Z.eqb_spec (Z.land s 240) 176) as [E3 | N3];
          [| destruct (Z.eqb_spec (Z.land s 240) 224) as [E4 | N4];
             [| destruct (Z.eqb_spec (Z.land s 240) 192) as [E5 | N5]]]]];
    destruct buf as [| d1 [| d2 rest]];
    cbn -[Z.land Z.lor Z.shiftl Z.sub] in Hev; try discriminate Hev;
    inversion Hev; subst ev; cbn -[Z.land]; repeat split; try assumption;
    intros Hin;
    repeat (apply elem_of_cons in Hin as [Hin | Hin]; [congruence |]);
    apply elem_of_nil in Hin; exact Hin.
Qed.

Lemma decode_classifies_witness :
  exists s,
    buffer (mk_jack_midi_event 0 2 [0xc7; 9]) !! 0%nat = Some s
    /\ port (mkMidiEvent MIDI_EVENT_PROGRAM 1 7 0 9) = 1
    /\ channel (mkMidiEvent MIDI_EVENT_PROGRAM 1 7 0 9) = Z.land s 0x0f.
Proof.
  destruct (decode_classifies (mkMidiEvent MIDI_EVENT_NONE 0 0 0 0)
              (mk_jack_midi_event 0 2 [0xc7; 9]) 1
              (mkMidiEvent MIDI_EVENT_PROGRAM 1 7 0 9) eq_refl)
    as (s & Hs & Hp & Hc & _).
  exists s. auto.
Defined.

(** ** The encoder *)

Lemma message_of_cases (ev : MidiEvent) (a b d : Z) :
  message_of ev [a; b; d]
  = match type ev with
    | MIDI_EVENT_NOTEON | MIDI_EVENT_NOTEOFF =>
        [to_uchar (Z.lor (to_uchar (default 0 (status_base (type ev)))) (channel ev));
         to_uchar (note_note ev); to_uchar (note_velocity ev)]
    | MIDI_EVENT_CTRL =>
        [to_uchar (Z.lor (to_uchar 0xb0) (channel ev));
         to_uchar (ctrl_param ev); to_uchar (ctrl_value ev)]
    | MIDI_EVENT_PITCHBEND =>
        [to_uchar (Z.lor (to_uchar 0xe0) (channel ev));
         to_uchar (Z.rem (ctrl_value ev + 8192) 128);
         to_uchar (Z.quot (ctrl_value ev + 8192) 128)]
    | MIDI_EVENT_PROGRAM =>
        [to_uchar (Z.lor (to_uchar 0xc0) (channel ev)); to_uchar (ctrl_value ev)]
    | MIDI_EVENT_NONE => []
    end.
Proof.
  unfold message_of, midi_event_to_jack, midi_event_to_jack_switch, or_channel.
  destruct (type ev); reflexivity.
Qed.

(** Whatever the fields of the event and whatever the array held, the
    message of an event has [len] bytes, at most three, each of them a
    byte value, and the array keeps its three elements. *)
Theorem encode_message_bytes (ev : MidiEvent) (data : list Z) :
  length data = 3%nat ->
  let jb := midi_event_to_jack ev data in
  length (message_of ev data) = jb_len jb
  /\ (jb_len jb <= 3)%nat
  /\ Forall is_uchar (message_of ev data)
  /\ length (jb_data jb) = 3%nat.
Proof.
  destruct data as [| a [| b [| d [| ? ?]]]]; try discriminate. intros _.
  rewrite message_of_cases.
  unfold midi_event_to_jack, midi_event_to_jack_switch, or_channel.
  destruct (type ev); cbn -[to_uchar Z.lor Z.rem Z.quot];
    repeat split; try lia; repeat constructor; apply to_uchar_range.
Qed.

Lemma encode_message_bytes_witness :
  length (message_of (mkMidiEvent MIDI_EVENT_PITCHBEND 0 300 0 99999) [1; 2; 3])
  = 3%nat
  /\ Forall is_uchar
       (message_of (mkMidiEvent MIDI_EVENT_PITCHBEND 0 300 0 99999) [1; 2; 3]).
Proof.
  destruct (encode_message_bytes (mkMidiEvent MIDI_EVENT_PITCHBEND 0 300 0 99999)
              [1; 2; 3] eq_refl) as (Hlen & _ & Hbytes & _).
  split; [exact Hlen | exact Hbytes].
Defined.

(** The message does not depend on what the array held before the call:
    the bytes the switch does not store are not part of the message. *)
Theorem encode_ignores_array (ev : MidiEvent) (data data' : list Z) :
  length data = 3%nat -> length data' = 3%nat ->
  message_of ev data = message_of ev data'
  /\ jb_len (midi_event_to_jack ev data) = jb_len (midi_event_to_jack ev data')
  /\ jb_port (midi_event_to_jack ev data) = jb_port (midi_event_to_jack ev data').
Proof.
  destruct data as [| a [| b [| d [| ? ?]]]]; try discriminate.
  destruct data' as [| a' [| b' [| d' [| ? ?]]]]; try discriminate.
  intros _ _. rewrite !message_of_cases.
  unfold midi_event_to_jack, midi_event_to_jack_switch.
  destruct (type ev); repeat split; reflexivity.
Qed.

Lemma encode_ignores_array_witness :
  message_of (mkMidiEvent MIDI_EVENT_PROGRAM 0 5 0 9) [1; 2; 3]
  = message_of (mkMidiEvent MIDI_EVENT_PROGRAM 0 5 0 9) [200; 201; 202].
Proof.
  exact (proj1 (encode_ignores_array (mkMidiEvent MIDI_EVENT_PROGRAM 0 5 0 9)
                  [1; 2; 3] [200; 201; 202] eq_refl eq_refl)).
Defined.

(** An event with its channel in 0..15 and its payload in the documented
    ranges is encoded as a MIDI channel message: a status byte between
    0x80 and 0xEF followed by data bytes between 0 and 127. *)
Theorem encode_valid_midi (ev : MidiEvent) (data : list Z) :
  length data = 3%nat ->
  representable (type ev) = true ->
  used_in_range ev = true ->
  exists s ds,
    message_of ev data = s :: ds
    /\ 0x80 <= s <= 0xef
    /\ Forall (fun d => 0 <= d <= 127) ds.
Proof.
  destruct ev as [ty p c d1 d2].
  destruct data as [| a [| b [| d [| ? ?]]]]; try discriminate.
  intros _ Hrep Hr. rewrite message_of_cases.
  unfold used_in_range in Hr. cbn [channel type] in Hr.
  apply andb_true_iff in Hr as [Hc Hp].
  unfold note_note, note_velocity, ctrl_param, ctrl_value in *.
  cbn [type channel data1 data2 status_base default] in *.
  destruct ty; try discriminate Hrep.
  1-3: apply andb_true_iff in Hp as [Hp1 Hp2]; apply in_7bit_spec in Hp1, Hp2;
       rewrite (to_uchar_small d1), (to_uchar_small d2) by lia;
       eexists _, _; split; [reflexivity |];
       split; [each_channel c Hc; vm_compute; split; discriminate | repeat constructor; lia].
  - apply in_pitchbend_spec in Hp.
    destruct (pitchbend_bytes d2 Hp) as [Hr Hq].
    rewrite (to_uchar_small (Z.rem _ _)), (to_uchar_small (Z.quot _ _)) by lia.
    eexists _, _; split; [reflexivity |].
    split; [each_channel c Hc; vm_compute; split; discriminate | repeat constructor; lia].
  - apply in_7bit_spec in Hp. rewrite (to_uchar_small d2) by lia.
    eexists _, _; split; [reflexivity |].
    split; [each_channel c Hc; vm_compute; split; discriminate | repeat constructor; lia].
Qed.

Lemma encode_valid_midi_witness :
  exists s ds,
    message_of (mkMidiEvent MIDI_EVENT_CTRL 0 15 7 127) [0; 0; 0] = s :: ds
    /\ 0x80 <= s <= 0xef
    /\ Forall (fun d => 0 <= d <= 127) ds.
Proof.
  exact (encode_valid_midi (mkMidiEvent MIDI_EVENT_CTRL 0 15 7 127) [0; 0; 0]
           eq_refl eq_refl eq_refl).
Defined.

Lemma nibbles_join (s : Z) :
  is_uchar s -> Z.lor (Z.land s 0xf0) (Z.land s 0x0f) = s.
Proof.
  unfold is_uchar. intros Hs.
  rewrite <- Z.land_lor_distr_r.
  change (Z.lor 240 15) with (Z.ones 8).
  rewrite Z.land_ones by lia. change (2 ^ 8) with 256.
  apply Z.mod_small. lia.
Qed.

Lemma status_byte_rejoin (s base : Z) :
  is_uchar s -> is_uchar base -> Z.land s 0xf0 = base ->
  to_uchar (Z.lor (to_uchar base) (Z.land s 0x0f)) = s.
Proof.
  intros Hs Hb Hbase.
  rewrite (to_uchar_small base) by exact Hb.
  subst base. rewrite nibbles_join by exact Hs.
  apply to_uchar_small. exact Hs.
Qed.

Lemma pitchbend_split (d1 d2 : Z) :
  0 <= d1 <= 127 -> 0 <= d2 ->
  Z.rem (Z.lor (Z.shiftl d2 7) d1 - 8192 + 8192) 128 = d1
  /\ Z.quot (Z.lor (Z.shiftl d2 7) d1 - 8192 + 8192) 128 = d2.
Proof.
  intros H1 H2. rewrite lor_shiftl7 by lia.
  replace (d2 * 128 + d1 - 8192 + 8192) with (d1 + d2 * 128) by lia.
  rewrite Z.rem_mod_nonneg, Z.quot_div_nonneg by lia.
  rewrite Z.mod_add, Z.div_add by lia.
  rewrite Z.mod_small, Z.div_small by lia. lia.
Qed.

(** The other round trip.  A message of byte values whose status byte is
    one of the five the decoder knows (and, for a pitch bend, whose first
    data byte is at most 127) is given back by the encoder: encoding the
    decoded event writes the bytes the decoder read, to the port the
    message came from. *)
Theorem encode_decode_roundtrip (ev0 : MidiEvent) (jack_ev : jack_midi_event_t)
    (p : Z) (ev : MidiEvent) (data : list Z) (s : Z) :
  length data = 3%nat ->
  Forall is_uchar (buffer jack_ev) ->
  buffer jack_ev !! 0%nat = Some s ->
  (Z.land s 0xf0 = 0xe0 ->
   forall d1, buffer jack_ev !! 1%nat = Some d1 -> d1 <= 127) ->
  jack_to_midi_event ev0 jack_ev p = Some ev ->
  representable (type ev) = true ->
  message_of ev data = take (bytes_read s) (buffer jack_ev)
  /\ jb_port (midi_event_to_jack ev data) = p.
Proof.
  destruct jack_ev as [t n buf]. cbn [buffer].
  destruct data as [| a [| b [| d [| ? ?]]]]; try discriminate.
  intros _ Hbytes Hs Hpb Hev Hrep.
  destruct buf as [| s' buf]; [discriminate Hs |].
  cbn in Hs. inversion Hs; subst s'. clear Hs.
  inversion Hbytes as [| ? ? Hsb Hrest]; subst.
  rewrite message_of_cases.
  unfold jack_to_midi_event, bytes_read in *. cbn [buffer] in Hev.
  cbn -[Z.land Z.eqb Z.lor Z.shiftl Z.sub] in Hev.
  assert (forall x y, Forall is_uchar (x :: y) -> to_uchar x = x) as Hsmall
    by (intros x y Hxy; inversion Hxy; apply to_uchar_small; assumption).
  destruct (Z.eqb_spec (Z.land s 240) 144) as [E1 | N1];
    [| destruct (Z.eqb_spec (Z.land s 240) 128) as [E2 | N2];
       [| destruct (Z.eqb_spec (Z.land s 240) 176) as [E3 | N3];
          [| destruct (Z.eqb_spec (Z.land s 240) 224) as [E4 | N4];
             [| destruct (Z.eqb_spec (Z.land s 240) 192) as [E5 | N5]]]]];
    destruct buf as [| d1 [| d2 rest]];
    cbn -[Z.land Z.lor Z.shiftl Z.sub] in Hev; try discriminate Hev;
    inversion Hev; subst ev; clear Hev;
    try discriminate Hrep;
    unfold midi_event_to_jack, midi_event_to_jack_switch,
      note_note, note_velocity, ctrl_param, ctrl_value;
    cbn -[Z.land Z.lor Z.shiftl Z.sub Z.add Z.rem Z.quot to_uchar];
    (split; [| reflexivity]).
  - rewrite (status_byte_rejoin s 144 Hsb ltac:(unfold is_uchar; lia) E1).
    inversion Hrest as [| ? ? H1 Hrest']; inversion Hrest' as [| ? ? H2 ?].
    rewrite !to_uchar_small by assumption. reflexivity.
  - rewrite (status_byte_rejoin s 128 Hsb ltac:(unfold is_uchar; lia) E2).
    inversion Hrest as [| ? ? H1 Hrest']; inversion Hrest' as [| ? ? H2 ?].
    rewrite !to_uchar_small by assumption. reflexivity.
  - rewrite (status_byte_rejoin s 176 Hsb ltac:(unfold is_uchar; lia) E3).
    inversion Hrest as [| ? ? H1 Hrest']; inversion Hrest' as [| ? ? H2 ?].
    rewrite !to_uchar_small by assumption. reflexivity.
  - rewrite (status_byte_rejoin s 224 Hsb ltac:(unfold is_uchar; lia) E4).
    inversion Hrest as [| ? ? H1 Hrest']; inversion Hrest' as [| ? ? H2 ?].
    specialize (Hpb E4 d1 eq_refl). unfold is_uchar in H1, H2.
    destruct (pitchbend_split d1 d2 ltac:(lia) ltac:(lia)) as [-> ->].
    rewrite !to_uchar_small by (unfold is_uchar; lia). reflexivity.
  - rewrite (status_byte_rejoin s 192 Hsb ltac:(unfold is_uchar; lia) E5).
    inversion Hrest as [| ? ? H1 Hrest'].
    rewrite !to_uchar_small by assumption. reflexivity.
  - rewrite (status_byte_rejoin s 192 Hsb ltac:(unfold is_uchar; lia) E5).
    inversion Hrest as [| ? ? H1 Hrest'].
    rewrite !to_uchar_small by assumption. reflexivity.
Qed.

Lemma encode_decode_roundtrip_witness :
  message_of (mkMidiEvent MIDI_EVENT_PITCHBEND 1 2 0 (-192)) [9; 9; 9]
  = [0xe2; 64; 62].
Proof.
  refine (proj1 (encode_decode_roundtrip (mkMidiEvent MIDI_EVENT_NONE 0 0 0 0)
                   (mk_jack_midi_event 0 3 [0xe2; 64; 62]) 1
                   (mkMidiEvent MIDI_EVENT_PITCHBEND 1 2 0 (-192)) [9; 9; 9] 0xe2
                   eq_refl _ eq_refl _ eq_refl eq_refl)).
  - repeat constructor; unfold is_uchar; lia.
  - intros _ d1 Hd1. cbn in Hd1. inversion Hd1. lia.
Defined.

(** ** The process callback, call by call *)

Lemma message_of_any_array (ev : MidiEvent) (data : list Z) :
  length data = 3%nat -> message_of ev data = message_of ev [0; 0; 0].
Proof.
  destruct data as [| a [| b [| d [| ? ?]]]]; try discriminate. intros _.
  rewrite !message_of_cases. reflexivity.
Qed.

Lemma message_of_shape (ev : MidiEvent) :
  Forall is_uchar (message_of ev [0; 0; 0])
  /\ (has_encoding ev = true ->
      length (message_of ev [0; 0; 0]) = 2%nat
      \/ length (message_of ev [0; 0; 0]) = 3%nat).
Proof.
  rewrite message_of_cases. unfold has_encoding.
  destruct (type ev); cbn -[to_uchar Z.lor Z.rem Z.quot];
    (split; [repeat constructor; apply to_uchar_range |]);
    intros Henc; try discriminate Henc; auto.
Qed.

Lemma encode_len_has_encoding (ev : MidiEvent) (data : list Z) :
  (jb_len (midi_event_to_jack ev data) =? 0)%nat = negb (has_encoding ev).
Proof.
  unfold has_encoding, midi_event_to_jack, midi_event_to_jack_switch.
  destruct (type ev); reflexivity.
Qed.

Lemma encode_port (ev : MidiEvent) (data : list Z) :
  jb_port (midi_event_to_jack ev data) = port ev.
Proof.
  unfold midi_event_to_jack.
  destruct (midi_event_to_jack_switch ev data). reflexivity.
Qed.

(** The drain loop without the loop: the calls of the queued events, in
    the order of the queue, and the queue emptied. *)
Lemma process_out_exact ev0 uninit :
  (forall k, length (uninit k) = 3%nat) ->
  forall fuel b calls,
    (ringbuffer.read_space (_out_rb b) <= fuel)%nat ->
    process_out fuel ev0 uninit b calls
    = (ws ← queue_calls (_out_ports b) (ringbuffer.items (_out_rb b));
       Some (set_out_rb b (ringbuffer.mk (ringbuffer.capacity (_out_rb b)) []),
             calls ++ ws)).
Proof.
  intros Huninit.
  induction fuel as [| fuel IH]; intros b calls Hfuel;
    destruct b as [cl ip op irb [cap its] mu co];
    unfold ringbuffer.read_space in Hfuel; cbn in Hfuel;
    cbn [process_out];
    unfold ringbuffer.read_space, ringbuffer.read_into, ringbuffer.read;
    cbn [_out_rb _out_ports ringbuffer.items ringbuffer.capacity];
    destruct its as [| ev its]; cbn in Hfuel; try lia;
    try (cbn; rewrite app_nil_r; reflexivity).
  cbn [length Nat.eqb queue_calls].
  rewrite encode_len_has_encoding, encode_port.
  unfold event_calls.
  pose proof (message_of_any_array ev (uninit (S fuel)) (Huninit _)) as Hmsg.
  unfold message_of in Hmsg at 1. rewrite Hmsg. clear Hmsg.
  unfold set_out_rb at 1 2 3.
  cbn [_client _in_ports _out_ports _in_rb _out_rb _mutex _cond].
  destruct (has_encoding ev); cbn [negb].
  - destruct (vector_at op (port ev)) as [port_handle |]; [| cbn; reflexivity].
    cbn [mbind option_bind].
    rewrite IH by (cbn; unfold ringbuffer.read_space; cbn; lia).
    cbn [_out_rb _out_ports ringbuffer.items ringbuffer.capacity set_out_rb
         _client _in_ports _in_rb _mutex _cond].
    destruct (queue_calls op its) as [ws |]; [| reflexivity].
    cbn. unfold set_out_rb. cbn. rewrite <- app_assoc. reflexivity.
  - cbn [mbind option_bind].
    rewrite IH by (cbn; unfold ringbuffer.read_space; cbn; lia).
    cbn [_out_rb _out_ports ringbuffer.items ringbuffer.capacity set_out_rb
         _client _in_ports _in_rb _mutex _cond].
    destruct (queue_calls op its) as [ws |]; reflexivity.
Qed.

Lemma process_exact ev0 port_buffer uninit (b : BackendJack) :
  (forall k, length (uninit k) = 3%nat) ->
  process ev0 port_buffer uninit b
  = (b1 ← process_in_ports ev0 port_buffer 0 (_in_ports b) b;
     ws ← queue_calls (_out_ports b) (ringbuffer.items (_out_rb b));
     Some (set_out_rb b1 (ringbuffer.mk (ringbuffer.capacity (_out_rb b)) []),
           process_clear (_out_ports b) ++ ws)).
Proof.
  intros Huninit. unfold process.
  destruct (process_in_ports ev0 port_buffer 0 (_in_ports b) b) as [b1 |] eqn:Hin;
    [| reflexivity].
  cbn [mbind option_bind].
  apply process_in_ports_frame in Hin as [Hrb Hop].
  rewrite process_out_exact by (exact Huninit || lia).
  rewrite Hrb, Hop. reflexivity.
Qed.

Lemma queue_calls_shape (out_ports : list Z) (evs : list MidiEvent) :
  forall ws, queue_calls out_ports evs = Some ws ->
             Forall (is_block_start_write out_ports) ws.
Proof.
  induction evs as [| ev evs IH]; intros ws Hws; cbn in Hws.
  - inversion Hws. constructor.
  - unfold event_calls in Hws.
    destruct (has_encoding ev) eqn:Henc.
    + destruct (vector_at out_ports (port ev)) as [h |] eqn:Hh;
        [| discriminate Hws].
      cbn in Hws.
      destruct (queue_calls out_ports evs) as [cs |]; [| discriminate Hws].
      cbn in Hws. inversion Hws; subst ws.
      constructor; [| apply IH; reflexivity].
      destruct (message_of_shape ev) as [Hbytes Hlen].
      unfold vector_at in Hh. destruct (0 <=? port ev); [| discriminate Hh].
      apply list_elem_of_lookup_2 in Hh.
      cbn. auto.
    + cbn in Hws.
      destruct (queue_calls out_ports evs) as [cs |]; [| discriminate Hws].
      cbn in Hws. inversion Hws; subst ws. apply IH. reflexivity.
Qed.

(** The callback first clears the buffer of every output port, in the
    order of the ports, and then only writes: one write for each queued
    event that has an encoding, in the order of the queue, at offset 0 of
    the block, to one of the output ports, of two or three byte values. *)
Theorem process_calls ev0 port_buffer uninit (b b' : BackendJack) calls :
  (forall k, length (uninit k) = 3%nat) ->
  process ev0 port_buffer uninit b = Some (b', calls) ->
  exists ws,
    calls = map Jack_midi_clear_buffer (_out_ports b) ++ ws
    /\ queue_calls (_out_ports b) (ringbuffer.items (_out_rb b)) = Some ws
    /\ Forall (is_block_start_write (_out_ports b)) ws.
Proof.
  intros Huninit Hrun. rewrite process_exact in Hrun by exact Huninit.
  destruct (process_in_ports _ _ _ _ _) as [b1 |]; [| discriminate Hrun].
  cbn in Hrun.
  destruct (queue_calls _ _) as [ws |] eqn:Hws; [| discriminate Hrun].
  cbn in Hrun. inversion Hrun; subst.
  exists ws. split; [reflexivity |]. split; [reflexivity |].
  apply (queue_calls_shape _ _ _ Hws).
Qed.

(** The content of the uninitialised array does not show: two runs of
    the callback that differ in it only have the same result. *)
Theorem process_ignores_uninitialised ev0 port_buffer uninit uninit'
    (b : BackendJack) :
  (forall k, length (uninit k) = 3%nat) ->
  (forall k, length (uninit' k) = 3%nat) ->
  process ev0 port_buffer uninit b = process ev0 port_buffer uninit' b.
Proof.
  intros H1 H2. rewrite !process_exact by assumption. reflexivity.
Qed.

Lemma process_calls_witness :
  exists b' ws,
    process (mkMidiEvent MIDI_EVENT_NONE 0 0 0 0) example_port_buffer
      (fun _ => [7; 7; 7]) example_backend
    = Some (b', map Jack_midi_clear_buffer [21; 22] ++ ws)
    /\ Forall (is_block_start_write [21; 22]) ws.
Proof.
  destruct (process (mkMidiEvent MIDI_EVENT_NONE 0 0 0 0) example_port_buffer
              (fun _ => [7; 7; 7]) example_backend) as [[b' calls] |] eqn:Hrun;
    [| vm_compute in Hrun; discriminate Hrun].
  destruct (process_calls _ _ (fun _ => [7; 7; 7]) _ _ _ (fun _ => eq_refl) Hrun)
    as (ws & Hcalls & _ & Hshape).
  exists b', ws. rewrite Hcalls. split; [reflexivity | exact Hshape].
Defined.

Lemma process_ignores_uninitialised_witness :
  process (mkMidiEvent MIDI_EVENT_NONE 0 0 0 0) example_port_buffer
    (fun _ => [7; 7; 7]) example_backend
  = process (mkMidiEvent MIDI_EVENT_NONE 0 0 0 0) example_port_buffer
      (fun k => [Z.of_nat k; 255; 0]) example_backend.
Proof.
  exact (process_ignores_uninitialised _ _ (fun _ => [7; 7; 7])
           (fun k => [Z.of_nat k; 255; 0]) _
           (fun _ => eq_refl) (fun _ => eq_refl)).
Defined.

(** *** What the callback leaves alone *)

Lemma process_in_events_fields ev0 n evs : forall b b',
  process_in_events ev0 n evs b = Some b' ->
  _client b' = _client b /\ _in_ports b' = _in_ports b
  /\ _mutex b' = _mutex b /\ _cond b' = _cond b
  /\ ringbuffer.capacity (_in_rb b') = ringbuffer.capacity (_in_rb b).
Proof.
  induction evs as [| jack_ev evs IH]; intros b b' Hrun; cbn in Hrun.
  - inversion Hrun. auto.
  - destruct (jack_to_midi_event ev0 jack_ev (Z.of_nat n)) as [ev |];
      [| discriminate Hrun].
    cbn in Hrun. apply IH in Hrun as (H1 & H2 & H3 & H4 & H5).
    cbn in H1, H2, H3, H4, H5. repeat split; try assumption.
    rewrite H5. unfold ringbuffer.write.
    destruct (_ <? _)%nat; reflexivity.
Qed.

Lemma process_in_ports_fields ev0 port_buffer ports : forall n b b',
  process_in_ports ev0 port_buffer n ports b = Some b' ->
  _client b' = _client b /\ _in_ports b' = _in_ports b
  /\ _mutex b' = _mutex b
  /\ _cond b' = (_cond b - ports_with_events port_buffer n (length ports))%nat
  /\ ringbuffer.capacity (_in_rb b') = ringbuffer.capacity (_in_rb b).
Proof.
  induction ports as [| h ports IH]; intros n b b' Hrun; cbn in Hrun.
  - inversion Hrun. unfold ports_with_events. cbn. repeat split. lia.
  - destruct (process_in_events ev0 n (port_buffer n) b) as [b1 |] eqn:Hin;
      [| discriminate Hrun].
    cbn in Hrun. apply process_in_events_fields in Hin as (H1 & H2 & H3 & H4 & H5).
    apply IH in Hrun as (K1 & K2 & K3 & K4 & K5).
    unfold ports_with_events in *. cbn [length seq List.filter].
    destruct (length (port_buffer n) =? 0)%nat; cbn [negb length] in *;
      unfold notify_one in *; cbn in K1, K2, K3, K4, K5;
      repeat split; try congruence; lia.
Qed.

Lemma process_out_fields ev0 uninit : forall fuel b calls b' calls',
  process_out fuel ev0 uninit b calls = Some (b', calls') ->
  _client b' = _client b /\ _in_ports b' = _in_ports b
  /\ _out_ports b' = _out_ports b /\ _mutex b' = _mutex b
  /\ ringbuffer.capacity (_out_rb b') = ringbuffer.capacity (_out_rb b).
Proof.
  induction fuel as [| fuel IH]; intros b calls b' calls' Hrun;
    cbn [process_out] in Hrun;
    destruct (ringbuffer.read_space (_out_rb b) =? 0)%nat;
    try (inversion Hrun; subst; auto; fail); try discriminate Hrun.
  assert (ringbuffer.capacity (ringbuffer.read_into ev0 (_out_rb b)).2
          = ringbuffer.capacity (_out_rb b)) as Hcap.
  { unfold ringbuffer.read_into, ringbuffer.read.
    destruct (ringbuffer.items (_out_rb b)); reflexivity. }
  destruct (ringbuffer.read_into ev0 (_out_rb b)) as [ev rb]. cbn in Hcap.
  destruct (jb_len _ =? 0)%nat.
  - apply IH in Hrun as (H1 & H2 & H3 & H4 & H5). cbn in *.
    repeat split; congruence.
  - destruct (vector_at _ _); [| discriminate Hrun].
    cbn in Hrun. apply IH in Hrun as (H1 & H2 & H3 & H4 & H5). cbn in *.
    repeat split; congruence.
Qed.

(** A run of the callback leaves the client handle, the two port
    vectors, the mutex and the capacities of both queues as they were,
    and it drains the outbound queue: nothing is left in it. *)
Theorem process_frame ev0 port_buffer uninit (b b' : BackendJack) calls :
  process ev0 port_buffer uninit b = Some (b', calls) ->
  _client b' = _client b
  /\ _in_ports b' = _in_ports b
  /\ _out_ports b' = _out_ports b
  /\ _mutex b' = _mutex b
  /\ ringbuffer.capacity (_in_rb b') = ringbuffer.capacity (_in_rb b)
  /\ ringbuffer.capacity (_out_rb b') = ringbuffer.capacity (_out_rb b)
  /\ ringbuffer.read_space (_out_rb b') = 0%nat.
Proof.
  unfold process. intros Hrun.
  destruct (process_in_ports ev0 port_buffer 0 (_in_ports b) b) as [b1 |] eqn:Hin;
    [| discriminate Hrun].
  cbn in Hrun.
  pose proof (process_in_ports_frame _ _ _ _ _ _ Hin) as [Hrb Hop].
  apply process_in_ports_fields in Hin as (H1 & H2 & H3 & _ & H5).
  pose proof (process_out_fields _ _ _ _ _ _ _ Hrun) as (K1 & K2 & K3 & K4 & K5).
  pose proof (process_out_frame _ _ _ _ _ _ _ Hrun) as [Kin _].
  apply process_out_writes in Hrun as [_ Hempty].
  unfold ringbuffer.read_space. rewrite Hempty, Kin.
  repeat split; congruence.
Qed.

Lemma process_frame_witness :
  match process (mkMidiEvent MIDI_EVENT_NONE 0 0 0 0) example_port_buffer
          (fun _ => [7; 7; 7]) example_backend with
  | Some (b', _) =>
      _out_ports b' = [21; 22] /\ ringbuffer.read_space (_out_rb b') = 0%nat
  | None => False
  end.
Proof.
  destruct (process (mkMidiEvent MIDI_EVENT_NONE 0 0 0 0) example_port_buffer
              (fun _ => [7; 7; 7]) example_backend) as [[b' calls] |] eqn:Hrun;
    [| vm_compute in Hrun; discriminate Hrun].
  destruct (process_frame _ _ _ _ _ _ Hrun) as (_ & _ & Hop & _ & _ & _ & Hempty).
  split; [exact Hop | exact Hempty].
Defined.

(** The callback notifies the condition variable once for every input
    port that delivered events in this block, not once per event, and not
    at all when no port delivered any. *)
Theorem process_notifies_per_port ev0 port_buffer uninit (b b' : BackendJack)
    calls :
  process ev0 port_buffer uninit b = Some (b', calls) ->
  _cond b'
  = (_cond b - ports_with_events port_buffer 0 (length (_in_ports b)))%nat.
Proof.
  unfold process. intros Hrun.
  destruct (process_in_ports ev0 port_buffer 0 (_in_ports b) b) as [b1 |] eqn:Hin;
    [| discriminate Hrun].
  cbn in Hrun.
  apply process_in_ports_fields in Hin as (_ & _ & _ & Hcond & _).
  apply process_out_frame in Hrun as [_ Kcond].
  rewrite Kcond. exact Hcond.
Qed.

Lemma process_notifies_per_port_witness :
  match process (mkMidiEvent MIDI_EVENT_NONE 0 0 0 0) example_port_buffer
          (fun _ => [7; 7; 7])
          (mkBackendJack 5 [11; 12] [21; 22] (ringbuffer.mk 4 [])
             (ringbuffer.mk 4 []) false 3) with
  | Some (b', _) =>
      length (example_port_buffer 1) = 2%nat /\ _cond b' = 2%nat
  | None => False
  end.
Proof.
  destruct (process (mkMidiEvent MIDI_EVENT_NONE 0 0 0 0) example_port_buffer
              (fun _ => [7; 7; 7])
              (mkBackendJack 5 [11; 12] [21; 22] (ringbuffer.mk 4 [])
                 (ringbuffer.mk 4 []) false 3)) as [[b' calls] |] eqn:Hrun;
    [| vm_compute in Hrun; discriminate Hrun].
  split; [reflexivity |].
  exact (process_notifies_per_port _ _ _ _ _ _ Hrun).
Defined.

(** *** What the callback enqueues *)

Lemma items_after_write (ev : MidiEvent) (rb : ringbuffer.t) (evs : list MidiEvent) :
  items_after_writes (ringbuffer.write ev rb) evs
  = items_after_writes rb (ev :: evs)
  /\ ringbuffer.capacity (ringbuffer.write ev rb) = ringbuffer.capacity rb.
Proof.
  unfold items_after_writes, ringbuffer.write, ringbuffer.read_space.
  destruct rb as [cap its]. cbn [ringbuffer.items ringbuffer.capacity].
  destruct (Nat.ltb_spec (length its) cap) as [Hroom | Hfull];
    cbn [ringbuffer.items ringbuffer.capacity].
  - split; [| reflexivity].
    rewrite length_app. cbn [length].
    replace (cap - length its)%nat with (S (cap - (length its + 1)))%nat by lia.
    cbn [take]. rewrite <- app_assoc. reflexivity.
  - split; [| reflexivity].
    replace (cap - length its)%nat with 0%nat by lia. reflexivity.
Qed.

Lemma items_after_no_write (rb : ringbuffer.t) :
  items_after_writes rb [] = ringbuffer.items rb.
Proof.
  unfold items_after_writes. rewrite take_nil. apply app_nil_r.
Qed.

Lemma items_after_writes_app (rb rb' : ringbuffer.t) (evs evs' : list MidiEvent) :
  ringbuffer.capacity rb' = ringbuffer.capacity rb ->
  ringbuffer.items rb' = items_after_writes rb evs ->
  items_after_writes rb' evs' = items_after_writes rb (evs ++ evs').
Proof.
  unfold items_after_writes. intros Hcap Hitems. rewrite Hitems, Hcap.
  rewrite <- app_assoc. f_equal.
  rewrite length_app, length_take.
  destruct (Nat.le_gt_cases (length evs)
              (ringbuffer.capacity rb - length (ringbuffer.items rb)))
    as [Hfit | Hover].
  - rewrite take_app_ge by exact Hfit.
    rewrite (take_ge evs) by exact Hfit.
    f_equal. f_equal. lia.
  - rewrite take_app_le by lia.
    rewrite Nat.min_l by lia.
    replace (ringbuffer.capacity rb
             - (length (ringbuffer.items rb)
                + (ringbuffer.capacity rb - length (ringbuffer.items rb))))%nat
      with 0%nat by lia.
    rewrite take_0. apply app_nil_r.
Qed.

Lemma process_in_events_enqueues ev0 n evs : forall b b',
  process_in_events ev0 n evs b = Some b' ->
  exists decoded,
    decode_events ev0 n evs = Some decoded
    /\ ringbuffer.items (_in_rb b') = items_after_writes (_in_rb b) decoded.
Proof.
  induction evs as [| jack_ev evs IH]; intros b b' Hrun; cbn in Hrun |- *.
  - inversion Hrun. exists []. split; [reflexivity |].
    symmetry. apply items_after_no_write.
  - destruct (jack_to_midi_event ev0 jack_ev (Z.of_nat n)) as [ev |];
      [| discriminate Hrun].
    cbn in Hrun |- *.
    destruct (IH _ _ Hrun) as (decoded & Hdec & Hitems).
    rewrite Hdec. cbn. exists (ev :: decoded). split; [reflexivity |].
    rewrite Hitems. cbn [_in_rb set_in_rb].
    apply items_after_write.
Qed.

Lemma process_in_ports_enqueues ev0 port_buffer ports : forall n b b',
  process_in_ports ev0 port_buffer n ports b = Some b' ->
  exists decoded,
    decode_ports ev0 port_buffer n ports = Some decoded
    /\ ringbuffer.items (_in_rb b') = items_after_writes (_in_rb b) decoded.
Proof.
  induction ports as [| h ports IH]; intros n b b' Hrun; cbn in Hrun |- *.
  - inversion Hrun. exists []. split; [reflexivity |].
    symmetry. apply items_after_no_write.
  - destruct (process_in_events ev0 n (port_buffer n) b) as [b1 |] eqn:Hin;
      [| discriminate Hrun].
    cbn in Hrun.
    destruct (process_in_events_enqueues _ _ _ _ _ Hin) as (d1 & Hd1 & Hitems1).
    apply process_in_events_fields in Hin as (_ & _ & _ & _ & Hcap).
    destruct (IH _ _ _ Hrun) as (d2 & Hd2 & Hitems2).
    rewrite Hd1, Hd2. cbn. exists (d1 ++ d2). split; [reflexivity |].
    rewrite Hitems2.
    apply items_after_writes_app;
      destruct (length (port_buffer n) =? 0)%nat; assumption.
Qed.

(** The callback enqueues the decoded input events port by port, and
    within a port in the order of the port buffer, behind what the
    inbound queue already holds; the events that find no room are
    dropped, the ones before them are kept. *)
Theorem process_enqueues_port_major ev0 port_buffer uninit (b b' : BackendJack)
    calls :
  process ev0 port_buffer uninit b = Some (b', calls) ->
  exists decoded,
    decode_ports ev0 port_buffer 0 (_in_ports b) = Some decoded
    /\ ringbuffer.items (_in_rb b')
       = ringbuffer.items (_in_rb b)
         ++ take (ringbuffer.capacity (_in_rb b)
                  - length (ringbuffer.items (_in_rb b))) decoded.
Proof.
  unfold process. intros Hrun.
  destruct (process_in_ports ev0 port_buffer 0 (_in_ports b) b) as [b1 |] eqn:Hin;
    [| discriminate Hrun].
  cbn in Hrun.
  destruct (process_in_ports_enqueues _ _ _ _ _ _ Hin) as (decoded & Hdec & Hitems).
  apply process_out_frame in Hrun as [Hrb _].
  exists decoded. split; [exact Hdec |].
  rewrite Hrb. exact Hitems.
Qed.

Lemma process_enqueues_port_major_witness :
  match process (mkMidiEvent MIDI_EVENT_NONE 0 0 0 0) example_port_buffer
          (fun _ => [7; 7; 7]) example_backend with
  | Some (b', _) =>
      exists decoded,
        decode_ports (mkMidiEvent MIDI_EVENT_NONE 0 0 0 0) example_port_buffer
          0 [11; 12] = Some decoded
        /\ ringbuffer.items (_in_rb b') = [] ++ take (4 - 0) decoded
  | None => False
  end.
Proof.
  destruct (process (mkMidiEvent MIDI_EVENT_NONE 0 0 0 0) example_port_buffer
              (fun _ => [7; 7; 7]) example_backend) as [[b' calls] |] eqn:Hrun;
    [| vm_compute in Hrun; discriminate Hrun].
  exact (process_enqueues_port_major _ _ _ _ _ _ Hrun).
Defined.

Example decode_ports_example :
  decode_ports (mkMidiEvent MIDI_EVENT_NONE 0 0 0 0) example_port_buffer 0 [11; 12]
  = Some [mkMidiEvent MIDI_EVENT_NOTEON 1 3 60 100;
          mkMidiEvent MIDI_EVENT_PROGRAM 1 2 0 9].
Proof. reflexivity. Qed.

(** ** The operations of the application thread and the callback *)

Lemma process_in_events_set_out_rb ev0 n evs rb : forall b,
  process_in_events ev0 n evs (set_out_rb b rb)
  = (fun b' => set_out_rb b' rb) <$> process_in_events ev0 n evs b.
Proof.
  induction evs as [| jack_ev evs IH]; intros b; cbn; [reflexivity |].
  destruct (jack_to_midi_event ev0 jack_ev (Z.of_nat n)) as [ev |];
    [| reflexivity].
  cbn. rewrite <- IH. reflexivity.
Qed.

Lemma process_in_ports_set_out_rb ev0 port_buffer ports rb : forall n b,
  process_in_ports ev0 port_buffer n ports (set_out_rb b rb)
  = (fun b' => set_out_rb b' rb) <$> process_in_ports ev0 port_buffer n ports b.
Proof.
  induction ports as [| h ports IH]; intros n b; cbn; [reflexivity |].
  rewrite process_in_events_set_out_rb.
  destruct (process_in_events ev0 n (port_buffer n) b) as [b1 |]; [| reflexivity].
  cbn. destruct (length (port_buffer n) =? 0)%nat; rewrite <- IH; reflexivity.
Qed.

Lemma queue_calls_snoc (out_ports : list Z) (evs : list MidiEvent) (ev : MidiEvent) :
  queue_calls out_ports (evs ++ [ev])
  = (ws ← queue_calls out_ports evs;
     c ← event_calls out_ports ev;
     Some (ws ++ c)).
Proof.
  induction evs as [| ev' evs IH]; cbn.
  - destruct (event_calls out_ports ev) as [c |]; [| reflexivity].
    cbn. rewrite app_nil_r. reflexivity.
  - destruct (event_calls out_ports ev') as [c' |]; [| reflexivity].
    cbn. rewrite IH.
    destruct (queue_calls out_ports evs) as [ws |]; [| reflexivity].
    cbn. destruct (event_calls out_ports ev) as [c |]; [| reflexivity].
    cbn. rewrite app_assoc. reflexivity.
Qed.

(** An event handed to [output_event] while the outbound queue has room
    is written by the next run of the callback, after everything that
    was queued before it, to the output port its port field names, as
    the message of the encoder; an event of type none adds no call. *)
Theorem output_event_then_process ev0 port_buffer uninit (b b' : BackendJack)
    calls (ev : MidiEvent) :
  (forall k, length (uninit k) = 3%nat) ->
  process ev0 port_buffer uninit b = Some (b', calls) ->
  (ringbuffer.read_space (_out_rb b) < ringbuffer.capacity (_out_rb b))%nat ->
  (has_encoding ev = false ->
   process ev0 port_buffer uninit (output_event ev b) = Some (b', calls))
  /\ (has_encoding ev = true ->
      forall port_handle,
        vector_at (_out_ports b) (port ev) = Some port_handle ->
        process ev0 port_buffer uninit (output_event ev b)
        = Some (b', calls ++ [Jack_midi_event_write port_handle 0
                                (message_of ev [0; 0; 0])])).
Proof.
  intros Huninit Hrun Hroom.
  rewrite process_exact in Hrun by exact Huninit.
  assert (forall c, event_calls (_out_ports b) ev = Some c ->
            process ev0 port_buffer uninit (output_event ev b)
            = Some (b', calls ++ c)) as Hgen.
  { intros c Hc. rewrite process_exact by exact Huninit.
    unfold output_event, ringbuffer.write.
    apply Nat.ltb_lt in Hroom. rewrite Hroom.
    cbn [_in_ports _out_ports _out_rb set_out_rb ringbuffer.items
         ringbuffer.capacity].
    change (mkBackendJack (_client b) (_in_ports b) (_out_ports b) (_in_rb b)
              (ringbuffer.mk (ringbuffer.capacity (_out_rb b))
                 (ringbuffer.items (_out_rb b) ++ [ev]))
              (_mutex b) (_cond b))
      with (set_out_rb b (ringbuffer.mk (ringbuffer.capacity (_out_rb b))
                            (ringbuffer.items (_out_rb b) ++ [ev]))).
    rewrite process_in_ports_set_out_rb, queue_calls_snoc.
    destruct (process_in_ports ev0 port_buffer 0 (_in_ports b) b) as [b1 |];
      [| discriminate Hrun].
    cbn in Hrun |- *.
    destruct (queue_calls (_out_ports b) (ringbuffer.items (_out_rb b)))
      as [ws |]; [| discriminate Hrun].
    cbn in Hrun |- *. rewrite Hc. cbn.
    inversion Hrun; subst. rewrite app_assoc. reflexivity. }
  split.
  - intros Henc. rewrite (Hgen []); [rewrite app_nil_r; reflexivity |].
    unfold event_calls. rewrite Henc. reflexivity.
  - intros Henc port_handle Hport. apply Hgen.
    unfold event_calls. rewrite Henc, Hport. reflexivity.
Qed.

Lemma output_event_then_process_witness :
  exists b' calls,
    process (mkMidiEvent MIDI_EVENT_NONE 0 0 0 0) example_port_buffer
      (fun _ => [7; 7; 7])
      (output_event (mkMidiEvent MIDI_EVENT_CTRL 1 0 7 127) example_backend)
    = Some (b', calls ++ [Jack_midi_event_write 22 0 [0xb0; 7; 127]]).
Proof.
  destruct (process (mkMidiEvent MIDI_EVENT_NONE 0 0 0 0) example_port_buffer
              (fun _ => [7; 7; 7]) example_backend) as [[b' calls] |] eqn:Hrun;
    [| vm_compute in Hrun; discriminate Hrun].
  exists b', calls.
  destruct (output_event_then_process _ _ (fun _ => [7; 7; 7]) _ _ _
              (mkMidiEvent MIDI_EVENT_CTRL 1 0 7 127)
              (fun _ => eq_refl) Hrun) as [_ Hwrite];
    [cbn; lia |].
  exact (Hwrite eq_refl 22 eq_refl).
Defined.

Lemma decode_port (ev0 : MidiEvent) (jack_ev : jack_midi_event_t) (p : Z)
    (ev : MidiEvent) :
  jack_to_midi_event ev0 jack_ev p = Some ev -> port ev = p.
Proof.
  destruct jack_ev as [t n buf]. unfold jack_to_midi_event. cbn [buffer].
  destruct buf as [| s buf]; [intros Hev; discriminate Hev |].
  cbn -[Z.land Z.eqb Z.lor Z.shiftl Z.sub]. intros Hev.
  destruct (Z.land s 240 =? 144), (Z.land s 240 =? 128),
    (Z.land s 240 =? 176), (Z.land s 240 =? 224), (Z.land s 240 =? 192);
    destruct buf as [| d1 [| d2 rest]];
    cbn -[Z.land Z.lor Z.shiftl Z.sub] in Hev; try discriminate Hev;
    inversion Hev; reflexivity.
Qed.

Lemma input_event_immediate (ev_in : MidiEvent) (b : BackendJack)
    (ev : MidiEvent) (rest : list MidiEvent) :
  ringbuffer.items (_in_rb b) = ev :: rest ->
  run ev_in [App_step; App_step] (input_event_start b)
  = mk_system
      (set_in_rb b (ringbuffer.mk (ringbuffer.capacity (_in_rb b)) rest))
      (PC_return ev).
Proof.
  intros Hitems. cbn. unfold app_step. cbn.
  unfold ringbuffer.read_space. rewrite Hitems. cbn.
  unfold ringbuffer.read_into, ringbuffer.read. rewrite Hitems. reflexivity.
Qed.

(** The first event the callback finds in the buffer of input port 0 is
    what the next [input_event] returns when the inbound queue was empty
    and has room: the message decoded, with port 0. *)
Theorem process_then_input_event ev0 port_buffer uninit (b b' : BackendJack)
    calls (msg : jack_midi_event_t) (rest : list jack_midi_event_t)
    (ev_in : MidiEvent) :
  process ev0 port_buffer uninit b = Some (b', calls) ->
  _in_ports b <> [] ->
  port_buffer 0%nat = msg :: rest ->
  ringbuffer.items (_in_rb b) = [] ->
  (0 < ringbuffer.capacity (_in_rb b))%nat ->
  exists ev,
    jack_to_midi_event ev0 msg 0 = Some ev
    /\ port ev = 0
    /\ returned (run ev_in [App_step; App_step] (input_event_start b'))
       = Some ev.
Proof.
  unfold process. intros Hrun Hports Hbuf Hempty Hcap.
  destruct (process_in_ports ev0 port_buffer 0 (_in_ports b) b) as [b1 |] eqn:Hin;
    [| discriminate Hrun].
  cbn in Hrun.
  destruct (process_in_ports_enqueues _ _ _ _ _ _ Hin) as (decoded & Hdec & Hitems).
  apply process_out_frame in Hrun as [Hrb _].
  destruct (_in_ports b) as [| h ports]; [contradiction |].
  cbn [decode_ports] in Hdec. rewrite Hbuf in Hdec.
  cbn [decode_events] in Hdec. change (Z.of_nat 0) with 0 in Hdec.
  destruct (jack_to_midi_event ev0 msg 0) as [ev |] eqn:Hev;
    [| discriminate Hdec].
  exists ev. split; [reflexivity |].
  split; [apply (decode_port _ _ _ _ Hev) |].
  cbn [mbind option_bind] in Hdec.
  destruct (decode_events ev0 0 rest) as [r1 |]; [| discriminate Hdec].
  cbn [mbind option_bind] in Hdec.
  destruct (decode_ports ev0 port_buffer 1 ports) as [r2 |]; [| discriminate Hdec].
  cbn [mbind option_bind] in Hdec. inversion Hdec; subst decoded.
  unfold items_after_writes in Hitems. rewrite Hempty in Hitems.
  cbn [length app] in Hitems.
  destruct (ringbuffer.capacity (_in_rb b)) as [| cap]; [lia |].
  cbn in Hitems. rewrite <- Hrb in Hitems.
  rewrite (input_event_immediate ev_in b' ev _ Hitems). reflexivity.
Qed.

Lemma process_then_input_event_witness :
  match process (mkMidiEvent MIDI_EVENT_NONE 0 0 0 0)
          (fun _ => [mk_jack_midi_event 0 3 [0x93; 60; 100]])
          (fun _ => [7; 7; 7]) example_backend with
  | Some (b', _) =>
      exists ev,
        jack_to_midi_event (mkMidiEvent MIDI_EVENT_NONE 0 0 0 0)
          (mk_jack_midi_event 0 3 [0x93; 60; 100]) 0 = Some ev
        /\ port ev = 0
        /\ returned (run (mkMidiEvent MIDI_EVENT_NONE 0 0 0 0)
                       [App_step; App_step] (input_event_start b')) = Some ev
  | None => False
  end.
Proof.
  destruct (process (mkMidiEvent MIDI_EVENT_NONE 0 0 0 0)
              (fun _ => [mk_jack_midi_event 0 3 [0x93; 60; 100]])
              (fun _ => [7; 7; 7]) example_backend) as [[b' calls] |] eqn:Hrun;
    [| vm_compute in Hrun; discriminate Hrun].
  apply (process_then_input_event _ _ _ _ _ _ _ [] _ Hrun);
    [discriminate | reflexivity | reflexivity | cbn; lia].
Defined.

Lemma stays_in_wait (ev_in : MidiEvent) (n : nat) (c : system) :
  pc c = PC_wait -> run ev_in (replicate n App_step) c = c.
Proof.
  destruct c as [b p]. cbn [pc]. intros ->.
  induction n as [| n IH]; [reflexivity | exact IH].
Qed.

(** The wake-up, and the lost wake-up.  A thread that is blocked in
    [_cond.wait] when the callback writes an event and notifies returns
    that event after four steps of its own (it takes the mutex again,
    releases it, finds the loop condition false and reads).  The loop
    test, however, is made without the mutex: when the write and the
    notification fall between the test that found the queue empty and
    the wait, the notification finds no waiting thread, and the thread
    then blocks in the wait with the event in the queue, however many
    steps it is given, until a later notification or a spurious
    wake-up. *)
Theorem input_event_wakes (ev_in : MidiEvent) (b : BackendJack) (ev : MidiEvent) :
  ringbuffer.items (_in_rb b) = [] ->
  (0 < ringbuffer.capacity (_in_rb b))%nat ->
  _mutex b = false ->
  (forall c, pc c = PC_wait -> backend c = b ->
     returned (run ev_in [Rt_write ev; Rt_notify;
                          App_step; App_step; App_step; App_step] c)
     = Some ev)
  /\ (forall n,
        let c := run ev_in ([App_step; Rt_write ev; Rt_notify]
                            ++ replicate n App_step) (input_event_start b) in
        returned c = None
        /\ in_items c = [ev]
        /\ ((2 <= n)%nat -> pc c = PC_wait))
  /\ (forall n,
        returned (run ev_in ([App_step; Rt_write ev; Rt_notify]
                             ++ replicate (2 + n) App_step
                             ++ [Spurious_wakeup;
                                 App_step; App_step; App_step; App_step])
                    (input_event_start b))
        = Some ev).
Proof.
  destruct b as [cl ip op [cap its] orb mu co].
  cbn [_in_rb _mutex ringbuffer.items ringbuffer.capacity].
  intros -> Hcap ->. destruct cap as [| cap]; [lia |].
  split; [| split].
  - intros [bc p] Hpc Hb. cbn in Hpc, Hb. subst p bc. reflexivity.
  - intros n. rewrite run_app.
    destruct n as [| [| n]]; [repeat split; cbn; lia.. |].
    change (replicate (S (S n)) App_step)
      with ([App_step; App_step] ++ replicate n App_step).
    rewrite run_app, stays_in_wait by reflexivity.
    repeat split.
  - intros n. rewrite run_app.
    change (replicate (2 + n) App_step)
      with ([App_step; App_step] ++ replicate n App_step).
    rewrite <- app_assoc, run_app, run_app, stays_in_wait by reflexivity.
    reflexivity.
Qed.

Lemma input_event_wakes_witness :
  let ev := mkMidiEvent MIDI_EVENT_NOTEON 0 3 60 100 in
  let ev_in := mkMidiEvent MIDI_EVENT_NONE 0 0 0 0 in
  let b := mkBackendJack 5 [11] [12] (ringbuffer.create 4) (ringbuffer.create 4)
             false 0 in
  returned (run ev_in [Rt_write ev; Rt_notify;
                       App_step; App_step; App_step; App_step]
              (mk_system b PC_wait)) = Some ev
  /\ returned (run ev_in ([App_step; Rt_write ev; Rt_notify]
                          ++ replicate 7 App_step) (input_event_start b))
     = None.
Proof.
  intros ev ev_in b.
  destruct (input_event_wakes ev_in b ev eq_refl ltac:(cbn; lia) eq_refl)
    as (Hwake & Hlost & _).
  split; [apply Hwake; reflexivity |].
  exact (proj1 (Hlost 7%nat)).
Defined.

Lemma step_written (ev_in : MidiEvent) (a : action) (c : system) :
  read_enabled c ->
  (forall x, x ∈ in_items (step ev_in a c) ->
             x ∈ in_items c \/ x ∈ written [a])
  /\ (forall ev, returned (step ev_in a c) = Some ev ->
                 returned c = Some ev \/ ev ∈ in_items c).
Proof.
  unfold read_enabled, in_items, returned. destruct c as [b p].
  cbn [pc backend]. intros Hen.
  destruct a; cbn [step].
  - unfold app_step. cbn [pc backend]. split.
    + intros x.
      destruct p; cbn [pc backend]; try (left; assumption);
        try (destruct (_mutex b); cbn; left; assumption).
      * destruct (_ =? _)%nat; cbn; left; assumption.
      * unfold ringbuffer.read_into, ringbuffer.read.
        destruct (ringbuffer.items (_in_rb b)) as [| ev' rest] eqn:Hitems;
          cbn; [rewrite Hitems; left; assumption |].
        intros Hx. left. apply elem_of_cons. right. exact Hx.
    + intros ev'.
      destruct p; cbn [pc backend]; try discriminate;
        try (destruct (_mutex b); cbn; discriminate).
      * destruct (_ =? _)%nat; cbn; discriminate.
      * specialize (Hen eq_refl).
        unfold ringbuffer.read_into, ringbuffer.read.
        destruct (ringbuffer.items (_in_rb b)) as [| ev1 rest] eqn:Hitems;
          [contradiction |].
        cbn. intros Hev. inversion Hev; subst ev1. right.
        apply elem_of_cons. left. reflexivity.
      * intros Hev. left. exact Hev.
  - cbn. split; [| auto].
    intros x Hx.
    destruct (write_items ev (_in_rb b)) as [Hsame | Happ].
    + left. rewrite <- Hsame. exact Hx.
    + rewrite Happ in Hx. apply elem_of_app in Hx as [Hx | Hx]; [left; exact Hx |].
      right. exact Hx.
  - split; destruct p; cbn; auto.
  - unfold wake. cbn [pc backend]. split; destruct p; cbn; auto.
Qed.

(** Whatever the schedule, what the queue holds and what [input_event]
    has returned was in the queue at the start or was written since. *)
Lemma run_written (ev_in : MidiEvent) (sched : list action) :
  forall c, read_enabled c -> returned c = None ->
    (forall x, x ∈ in_items (run ev_in sched c) ->
               x ∈ in_items c \/ x ∈ written sched)
    /\ (forall ev, returned (run ev_in sched c) = Some ev ->
                   ev ∈ in_items c \/ ev ∈ written sched).
Proof.
  induction sched as [| a sched IH] using rev_ind; intros c Hen Hret.
  - cbn. split; [auto |]. intros ev Hev. rewrite Hret in Hev. discriminate Hev.
  - rewrite run_snoc. unfold written. rewrite omap_app. fold (written sched).
    fold (written [a]).
    destruct (IH c Hen Hret) as [Hitems Hreturned].
    destruct (step_written ev_in a (run ev_in sched c)
                (run_read_enabled ev_in sched c Hen)) as [Sitems Sreturned].
    assert (forall x, x ∈ in_items (run ev_in sched c) ->
                      x ∈ in_items c \/ x ∈ written sched ++ written [a]) as Hlift.
    { intros x Hx. destruct (Hitems x Hx) as [? | ?]; [left; assumption |].
      right. apply elem_of_app. left. assumption. }
    split.
    + intros x Hx. destruct (Sitems x Hx) as [Hold | Hnew]; [apply Hlift, Hold |].
      right. apply elem_of_app. right. exact Hnew.
    + intros ev Hev. destruct (Sreturned ev Hev) as [Hold | Hin];
        [| apply Hlift, Hin].
      destruct (Hreturned ev Hold) as [? | ?]; [left; assumption |].
      right. apply elem_of_app. left. assumption.
Qed.

(** After [drop_input] a call of [input_event] does not return as long
    as the callback writes nothing, whatever the inbound queue held
    before; and under every schedule, what it returns is an event the
    callback wrote after the drop, never one of the dropped events. *)
Theorem drop_input_then_input_event (ev_in : MidiEvent) (b : BackendJack)
    (sched : list action) :
  (existsb is_rt_write sched = false ->
   returned (run ev_in sched (input_event_start (drop_input b))) = None)
  /\ (forall ev,
        returned (run ev_in sched (input_event_start (drop_input b))) = Some ev ->
        ev ∈ written sched).
Proof.
  split.
  - intros Hsched.
    assert (waiting_for_data (input_event_start (drop_input b))) as Hstart
      by (repeat split; discriminate).
    apply (run_waiting ev_in sched _ Hsched Hstart).
  - intros ev Hev.
    assert (read_enabled (input_event_start (drop_input b))) as Hen
      by (intros Hpc; discriminate Hpc).
    destruct (run_written ev_in sched _ Hen eq_refl) as [_ Hreturned].
    destruct (Hreturned ev Hev) as [Hold | Hnew]; [| exact Hnew].
    unfold in_items in Hold. cbn in Hold. apply elem_of_nil in Hold. contradiction.
Qed.

Lemma drop_input_then_input_event_witness :
  let old := mkMidiEvent MIDI_EVENT_CTRL 0 0 7 1 in
  let new := mkMidiEvent MIDI_EVENT_NOTEON 0 3 60 100 in
  let b := mkBackendJack 5 [11] [21] (ringbuffer.mk 4 [old; old])
             (ringbuffer.mk 4 []) false 0 in
  returned (run old [App_step; App_step; App_step; Spurious_wakeup; App_step]
              (input_event_start (drop_input b))) = None
  /\ new ∈ written [Rt_write new; App_step; App_step].
Proof.
  intros old new b.
  split.
  - exact (proj1 (drop_input_then_input_event old b
                    [App_step; App_step; App_step; Spurious_wakeup; App_step])
             eq_refl).
  - exact (proj2 (drop_input_then_input_event old b
                    [Rt_write new; App_step; App_step]) new eq_refl).
Defined.

(** ** The constructor, call by call *)

Section ConstructorLog.

Context {L : Type} `{JackLibrary L}.

Lemma register_ports_log (client : Z) (flags : JackPortFlags) (what : string)
    (names : list string) :
  forall n ports (w : world L),
    (n + length names <= length ports)%nat ->
    exists calls,
      log (register_ports client flags what names n ports w).2 = log w ++ calls
      /\ Forall (fun c => is_activate c = false) calls
      /\ match (register_ports client flags what names n ports w).1 with
         | inr ports' =>
             map request_of calls
             = map (fun name => Req_port_register client name flags) names
             /\ ports' = take n ports ++ map result_of calls
                         ++ drop (n + length names) ports
             /\ Forall (fun c => result_of c <> NULL) calls
         | inl _ =>
             map request_of calls
             `prefix_of` map (fun name => Req_port_register client name flags) names
         end.
Proof.
  induction names as [| name names IH]; intros n ports w Hlen.
  - exists []. cbn. rewrite app_nil_r, Nat.add_0_r, take_drop.
    repeat split; constructor.
  - cbn [register_ports]. unfold bind, call_port_register, lib_call_of.
    destruct (jack_port_register client name flags (lib w)) as [p s'].
    cbn [length] in Hlen.
    destruct (Z.eqb_spec p NULL) as [Hnull | Hport].
    + exists [Call_port_register client name flags p]. cbn.
      split; [reflexivity |]. split; [repeat constructor |].
      apply prefix_cons, prefix_nil.
    + destruct (IH (S n) (<[n:=p]> ports)
                  (mk_world s' (log w ++ [Call_port_register client name flags p])))
        as (calls & Hlog & Hact & Hres);
        [rewrite length_insert; lia |].
      exists (Call_port_register client name flags p :: calls).
      split; [rewrite Hlog; cbn; rewrite <- app_assoc; reflexivity |].
      split; [constructor; [reflexivity | exact Hact] |].
      destruct (register_ports client flags what names (S n) (<[n:=p]> ports) _).1
        as [e | ports'].
      * cbn. apply prefix_cons, Hres.
      * destruct Hres as (Hreq & Hports & Hnonnull).
        split; [cbn; rewrite Hreq; reflexivity |].
        split; [| constructor; assumption].
        rewrite Hports.
        rewrite (take_S_r _ _ p) by (apply list_lookup_insert_eq; lia).
        rewrite take_insert_ge, drop_insert_lt by lia.
        cbn [map length]. rewrite <- app_assoc.
        replace (S n + length names)%nat with (n + S (length names))%nat by lia.
        reflexivity.
Qed.

(** The calls of a construction, and what it leaves behind. *)
Lemma construct_log (max : nat) (client_name : string)
    (in_portnames out_portnames : list string) (s : L)
    (res : BackendError + BackendJack) (w : world L) :
  construct max client_name in_portnames out_portnames s = (res, w) ->
  exists client rest,
    log w = Call_client_open client_name client :: rest
    /\ map request_of rest
       `prefix_of` requests_after_open client in_portnames out_portnames
    /\ match res with
       | inl _ => Forall (fun c => is_activate c = true -> result_of c <> 0) rest
       | inr b =>
           exists r0 regs_in regs_out,
             rest = Call_set_process_callback client r0
                    :: regs_in ++ regs_out ++ [Call_activate client 0]
             /\ map request_of rest
                = requests_after_open client in_portnames out_portnames
             /\ map request_of regs_in
                = map (fun name => Req_port_register client name JackPortIsInput)
                    in_portnames
             /\ map request_of regs_out
                = map (fun name => Req_port_register client name JackPortIsOutput)
                    out_portnames
             /\ client <> 0
             /\ b = mkBackendJack client (map result_of regs_in)
                      (map result_of regs_out) (ringbuffer.create max)
                      (ringbuffer.create max) false 0
             /\ Forall (fun c => result_of c <> NULL) (regs_in ++ regs_out)
       end.
Proof.
  unfold construct, BackendJack_new. intros Hrun.
  unfold bind at 1, call_client_open, lib_call_of in Hrun.
  cbn [lib log app] in Hrun.
  destruct (jack_client_open client_name s) as [client s1].
  exists client.
  destruct (Z.eqb_spec client 0) as [Hnull | Hclient].
  { unfold throw in Hrun. inversion Hrun; subst res w. clear Hrun.
    exists []. cbn. split; [reflexivity |].
    split; [apply prefix_nil | constructor]. }
  unfold bind at 1, call_set_process_callback, lib_call_of in Hrun.
  cbn [lib log app] in Hrun.
  destruct (jack_set_process_callback client s1) as [r0 s2].
  unfold bind at 1 in Hrun.
  destruct (register_ports_log client JackPortIsInput "error creating input port"
              in_portnames 0 (replicate (length in_portnames) NULL)
              (mk_world s2 [Call_client_open client_name client;
                            Call_set_process_callback client r0]))
    as (regs_in & Hlog_in & Hact_in & Hres_in);
    [rewrite length_replicate; lia |].
  destruct (register_ports client JackPortIsInput _ in_portnames 0 _ _)
    as [[e | in_ports] w3]; cbn [fst snd log] in Hlog_in, Hres_in.
  { inversion Hrun; subst res w. clear Hrun.
    exists (Call_set_process_callback client r0 :: regs_in).
    split; [rewrite Hlog_in; reflexivity |].
    split.
    - cbn [map request_of requests_after_open]. apply prefix_cons.
      apply prefix_app_r, Hres_in.
    - constructor; [discriminate |].
      eapply Forall_impl; [exact Hact_in |].
      cbn. intros c Hc Hc'. congruence. }
  destruct Hres_in as (Hreq_in & Hports_in & Hnn_in).
  rewrite drop_ge in Hports_in by (rewrite length_replicate; lia).
  cbn [take app] in Hports_in. rewrite app_nil_r in Hports_in. subst in_ports.
  unfold bind at 1 in Hrun.
  destruct (register_ports_log client JackPortIsOutput "error creating output port"
              out_portnames 0 (replicate (length out_portnames) NULL) w3)
    as (regs_out & Hlog_out & Hact_out & Hres_out);
    [rewrite length_replicate; lia |].
  destruct (register_ports client JackPortIsOutput _ out_portnames 0 _ w3)
    as [[e | out_ports] w4]; cbn [fst snd] in Hlog_out, Hres_out.
  { inversion Hrun; subst res w. clear Hrun.
    exists (Call_set_process_callback client r0 :: regs_in ++ regs_out).
    split; [rewrite Hlog_out, Hlog_in; cbn; rewrite <- ?app_assoc; reflexivity |].
    split.
    - cbn [map request_of requests_after_open]. apply prefix_cons.
      rewrite map_app, Hreq_in. apply prefix_app.
      apply prefix_app_r, Hres_out.
    - constructor; [discriminate |].
      apply Forall_app. split;
        [eapply Forall_impl; [exact Hact_in |]
        | eapply Forall_impl; [exact Hact_out |]];
        cbn; intros c Hc Hc'; congruence. }
  destruct Hres_out as (Hreq_out & Hports_out & Hnn_out).
  rewrite drop_ge in Hports_out by (rewrite length_replicate; lia).
  cbn [take app] in Hports_out. rewrite app_nil_r in Hports_out. subst out_ports.
  unfold bind, call_activate, lib_call_of in Hrun.
  destruct (jack_activate client (lib w4)) as [failed s5].
  exists (Call_set_process_callback client r0
          :: regs_in ++ regs_out ++ [Call_activate client failed]).
  assert (map request_of
            (Call_set_process_callback client r0
             :: regs_in ++ regs_out ++ [Call_activate client failed])
          = requests_after_open client in_portnames out_portnames) as Hreq.
  { cbn [map request_of requests_after_open].
    rewrite !map_app, Hreq_in, Hreq_out. reflexivity. }
  destruct (Z.eqb_spec failed 0) as [Hok | Hfailed]; cbn [negb] in Hrun;
    unfold throw, ret in Hrun; inversion Hrun; subst res w; clear Hrun;
    cbn [log].
  - split; [rewrite Hlog_out, Hlog_in; cbn; rewrite <- ?app_assoc; reflexivity |].
    split; [rewrite Hreq; reflexivity |].
    subst failed. exists r0, regs_in, regs_out.
    split; [reflexivity |]. split; [exact Hreq |].
    split; [exact Hreq_in |]. split; [exact Hreq_out |].
    split; [exact Hclient |]. split; [reflexivity |].
    apply Forall_app. split; assumption.
  - split; [rewrite Hlog_out, Hlog_in; cbn; rewrite <- ?app_assoc; reflexivity |].
    split; [rewrite Hreq; reflexivity |].
    constructor; [discriminate |].
    apply Forall_app. split;
      [eapply Forall_impl; [exact Hact_in |]; cbn; intros c Hc Hc'; congruence |].
    apply Forall_app. split;
      [eapply Forall_impl; [exact Hact_out |]; cbn; intros c Hc Hc'; congruence |].
    constructor; [intros _; exact Hfailed | constructor].
Qed.

End ConstructorLog.

(** The constructor calls the library in one fixed order: it opens the
    client, sets the process callback, registers the input ports in the
    order of their names, then the output ports in the order of theirs,
    all with the handle the open returned, and activates the client
    last.  The calls made are an initial part of that sequence, and the
    whole of it when the construction succeeds. *)
Theorem constructor_call_order {L : Type} `{JackLibrary L} (max : nat)
    (client_name : string) (in_portnames out_portnames : list string) (s : L) :
  let r := construct max client_name in_portnames out_portnames s in
  exists client rest,
    log r.2 = Call_client_open client_name client :: rest
    /\ map request_of rest
       `prefix_of` requests_after_open client in_portnames out_portnames
    /\ (is_inr_backend r.1 = true ->
        map request_of rest
        = requests_after_open client in_portnames out_portnames).
Proof.
  intros r. subst r.
  destruct (construct max client_name in_portnames out_portnames s)
    as [res w] eqn:Hrun.
  destruct (construct_log _ _ _ _ _ _ _ Hrun) as (client & rest & Hlog & Hpre & Hres).
  exists client, rest. cbn [fst snd].
  split; [exact Hlog |]. split; [exact Hpre |].
  intros Hok. destruct res as [e | b]; [discriminate Hok |].
  destruct Hres as (r0 & regs_in & regs_out & _ & Hreq & _). exact Hreq.
Qed.

(** A construction that succeeds leaves a backend whose client handle is
    the non-null handle the open returned, whose port vectors hold the
    handles the registrations returned, one per name and in the order of
    the names, none of them null, and whose two queues are empty with the
    configured capacity; the last call was the activation, and it
    returned 0. *)
Theorem constructor_success {L : Type} `{JackLibrary L} (max : nat)
    (client_name : string) (in_portnames out_portnames : list string) (s : L)
    (b : BackendJack) :
  (construct max client_name in_portnames out_portnames s).1 = inr b ->
  exists r0 regs_in regs_out,
    log (construct max client_name in_portnames out_portnames s).2
    = Call_client_open client_name (_client b)
      :: Call_set_process_callback (_client b) r0
      :: regs_in ++ regs_out ++ [Call_activate (_client b) 0]
    /\ _client b <> 0
    /\ map request_of regs_in
       = map (fun name => Req_port_register (_client b) name JackPortIsInput)
           in_portnames
    /\ map request_of regs_out
       = map (fun name => Req_port_register (_client b) name JackPortIsOutput)
           out_portnames
    /\ _in_ports b = map result_of regs_in
    /\ _out_ports b = map result_of regs_out
    /\ length (_in_ports b) = length in_portnames
    /\ length (_out_ports b) = length out_portnames
    /\ Forall (fun h => h <> NULL) (_in_ports b ++ _out_ports b)
    /\ _in_rb b = ringbuffer.create max
    /\ _out_rb b = ringbuffer.create max.
Proof.
  destruct (construct max client_name in_portnames out_portnames s)
    as [res w] eqn:Hrun.
  cbn [fst snd]. intros Hres. subst res.
  destruct (construct_log _ _ _ _ _ _ _ Hrun)
    as (client & rest & Hlog & _ & r0 & regs_in & regs_out
        & Hrest & _ & Hreq_in & Hreq_out & Hclient & Hb & Hnn).
  subst b rest. cbn [_client _in_ports _out_ports _in_rb _out_rb].
  exists r0, regs_in, regs_out.
  split; [exact Hlog |]. split; [exact Hclient |].
  split; [exact Hreq_in |]. split; [exact Hreq_out |].
  split; [reflexivity |]. split; [reflexivity |].
  split; [rewrite length_map, <- (length_map request_of), Hreq_in;
          apply length_map |].
  split; [rewrite length_map, <- (length_map request_of), Hreq_out;
          apply length_map |].
  split; [| split; reflexivity].
  rewrite <- map_app. apply Forall_map. exact Hnn.
Qed.

Lemma constructor_success_witness :
  exists r0 regs_in regs_out,
    log (construct (H := scripted_library) 16 "mididings" ["in_1"]
           ["out_1"; "out_2"] [5; 0; 11; 12; 13; 0]).2
    = Call_client_open "mididings" 5
      :: Call_set_process_callback 5 r0
      :: regs_in ++ regs_out ++ [Call_activate 5 0]
    /\ map result_of regs_in = [11]
    /\ map result_of regs_out = [12; 13].
Proof.
  destruct (constructor_success (H := scripted_library) 16 "mididings" ["in_1"]
              ["out_1"; "out_2"] [5; 0; 11; 12; 13; 0]
              (mkBackendJack 5 [11] [12; 13] (ringbuffer.create 16)
                 (ringbuffer.create 16) false 0) eq_refl)
    as (r0 & regs_in & regs_out & Hlog & _ & _ & _ & Hin & Hout & _).
  exists r0, regs_in, regs_out.
  split; [exact Hlog |]. split; [symmetry; exact Hin | symmetry; exact Hout].
Defined.

(** A construction that throws has not activated the client: no
    activation that returned 0 is among the calls it made. *)
Theorem constructor_failure_not_activated {L : Type} `{JackLibrary L}
    (max : nat) (client_name : string) (in_portnames out_portnames : list string)
    (s : L) (e : BackendError) :
  (construct max client_name in_portnames out_portnames s).1 = inl e ->
  forall client,
    Call_activate client 0
    ∉ log (construct max client_name in_portnames out_portnames s).2.
Proof.
  destruct (construct max client_name in_portnames out_portnames s)
    as [res w] eqn:Hrun.
  cbn [fst snd]. intros Hres. subst res.
  destruct (construct_log _ _ _ _ _ _ _ Hrun)
    as (client & rest & Hlog & _ & Hact).
  intros client' Hin. rewrite Hlog in Hin.
  apply elem_of_cons in Hin as [Hin | Hin]; [discriminate Hin |].
  rewrite Forall_forall in Hact.
  apply (Hact _ Hin); reflexivity.
Qed.

Lemma constructor_failure_not_activated_witness :
  Call_activate 5 0
  ∉ log (construct (H := scripted_library) 16 "mididings" ["in_1"] ["out_1"]
           [5; 0; 11; 0]).2.
Proof.
  exact (constructor_failure_not_activated (H := scripted_library) 16
           "mididings" ["in_1"] ["out_1"] [5; 0; 11; 0]
           (mkBackendError "error creating output port") eq_refl 5).
Defined.

(** ** When the callback is defined *)

Lemma process_in_events_defined ev0 n evs : forall b,
  is_Some (process_in_events ev0 n evs b)
  <-> Forall (fun jack_ev => is_Some (jack_to_midi_event ev0 jack_ev (Z.of_nat n)))
        evs.
Proof.
  induction evs as [| jack_ev evs IH]; intros b; cbn.
  - split; [constructor | eexists; reflexivity].
  - split.
    + intros Hsome.
      destruct (jack_to_midi_event ev0 jack_ev (Z.of_nat n)) as [ev |] eqn:Hev;
        [| destruct Hsome as [? Hnone]; discriminate Hnone].
      cbn in Hsome. constructor; [rewrite Hev; eexists; reflexivity |].
      exact (proj1 (IH _) Hsome).
    + intros Hall. inversion Hall as [| ? ? [ev Hev] Hrest]; subst.
      rewrite Hev. cbn. apply IH, Hrest.
Qed.

Lemma process_in_ports_defined ev0 port_buffer ports : forall n b,
  is_Some (process_in_ports ev0 port_buffer n ports b)
  <-> forall k, (k < length ports)%nat ->
        Forall (fun jack_ev =>
                  is_Some (jack_to_midi_event ev0 jack_ev (Z.of_nat (n + k))))
          (port_buffer (n + k)%nat).
Proof.
  induction ports as [| h ports IH]; intros n b; cbn [process_in_ports length].
  - split; [intros _ k Hk; lia | intros _; eexists; reflexivity].
  - split.
    + intros Hsome k Hk.
      destruct (process_in_events ev0 n (port_buffer n) b) as [b1 |] eqn:Hin;
        [| destruct Hsome as [? Hnone]; discriminate Hnone].
      cbn in Hsome.
      destruct k as [| k].
      * rewrite Nat.add_0_r. apply (process_in_events_defined ev0 n _ b).
        rewrite Hin. eexists; reflexivity.
      * replace (n + S k)%nat with (S n + k)%nat by lia.
        apply (proj1 (IH (S n) _) Hsome). lia.
    + intros Hall.
      assert (is_Some (process_in_events ev0 n (port_buffer n) b)) as [b1 Hin].
      { apply process_in_events_defined.
        specialize (Hall 0%nat ltac:(lia)). rewrite Nat.add_0_r in Hall.
        exact Hall. }
      rewrite Hin. cbn. apply IH. intros k Hk.
      replace (S n + k)%nat with (n + S k)%nat by lia.
      apply Hall. lia.
Qed.

Lemma process_out_defined ev0 uninit : forall fuel b calls,
  is_Some (process_out fuel ev0 uninit b calls) ->
  Forall (port_valid (_out_ports b)) (ringbuffer.items (_out_rb b)).
Proof.
  induction fuel as [| fuel IH]; intros b calls Hsome;
    destruct b as [cl ip op irb [cap its] mu co];
    cbn [process_out] in Hsome;
    unfold ringbuffer.read_space, ringbuffer.read_into, ringbuffer.read in Hsome;
    cbn [_out_rb _out_ports ringbuffer.items ringbuffer.capacity] in Hsome |- *;
    destruct its as [| ev its]; cbn [length Nat.eqb] in Hsome;
    try constructor;
    try (destruct Hsome as [? Hnone]; discriminate Hnone).
  - unfold port_valid. intros Henc.
    rewrite encode_len_has_encoding, encode_port, Henc in Hsome.
    cbn [negb] in Hsome. unfold set_out_rb in Hsome.
    cbn [_client _in_ports _out_ports _in_rb _out_rb _mutex _cond] in Hsome.
    destruct (vector_at op (port ev)) as [h |]; [eexists; reflexivity |].
    destruct Hsome as [? Hnone]. cbn in Hnone. discriminate Hnone.
  - rewrite encode_len_has_encoding in Hsome.
    destruct (has_encoding ev); cbn [negb] in Hsome.
    + destruct (vector_at _ _) as [h |];
        [| destruct Hsome as [? Hnone]; cbn in Hnone; discriminate Hnone].
      cbn in Hsome. apply IH in Hsome. exact Hsome.
    + apply IH in Hsome. exact Hsome.
Qed.

(** Provided every queued event has an encoding and no pitch-bend sum
    overflows, so that the encoder itself is well defined on the
    uninitialised array, a run of the callback reads no byte past the end
    of a message and indexes [_out_ports] inside the vector exactly when
    every message in the buffers of its input ports has the bytes the
    decoder reads and the port field of every queued event is an index of
    [_out_ports]. *)
Theorem process_defined ev0 port_buffer uninit (b : BackendJack) :
  Forall encode_well_defined (ringbuffer.items (_out_rb b)) ->
  is_Some (process ev0 port_buffer uninit b)
  <-> (forall n, (n < length (_in_ports b))%nat ->
         Forall (fun jack_ev =>
                   is_Some (jack_to_midi_event ev0 jack_ev (Z.of_nat n)))
           (port_buffer n))
      /\ Forall (fun ev => is_Some (vector_at (_out_ports b) (port ev)))
           (ringbuffer.items (_out_rb b)).
Proof.
  intros Hwd.
  assert (Forall (port_valid (_out_ports b)) (ringbuffer.items (_out_rb b))
          <-> Forall (fun ev => is_Some (vector_at (_out_ports b) (port ev)))
                (ringbuffer.items (_out_rb b))) as Hports.
  { rewrite !Forall_forall. rewrite Forall_forall in Hwd.
    unfold port_valid. split; intros Hall ev Hin.
    - apply (Hall ev Hin). apply (Hwd ev Hin).
    - intros _. apply (Hall ev Hin). }
  rewrite <- Hports. clear Hports Hwd.
  unfold process. split.
  - intros Hsome.
    destruct (process_in_ports ev0 port_buffer 0 (_in_ports b) b) as [b1 |] eqn:Hin;
      [| destruct Hsome as [? Hnone]; discriminate Hnone].
    cbn in Hsome. split.
    + intros n Hn.
      apply (proj1 (process_in_ports_defined ev0 port_buffer (_in_ports b) 0 b));
        [rewrite Hin; eexists; reflexivity | exact Hn].
    + apply process_in_ports_frame in Hin as [Hrb Hop].
      apply process_out_defined in Hsome. rewrite Hrb, Hop in Hsome. exact Hsome.
  - intros [Hin Hout].
    assert (is_Some (process_in_ports ev0 port_buffer 0 (_in_ports b) b))
      as [b1 Hb1] by (apply process_in_ports_defined; exact Hin).
    rewrite Hb1. cbn.
    apply process_in_ports_frame in Hb1 as [Hrb Hop].
    apply process_out_returns; [lia |]. rewrite Hrb, Hop. exact Hout.
Qed.

Lemma process_defined_witness :
  is_Some (process (mkMidiEvent MIDI_EVENT_NONE 0 0 0 0) example_port_buffer
             (fun _ => [7; 7; 7])
             (mkBackendJack 5 [11; 12] [21; 22] (ringbuffer.mk 4 [])
                (ringbuffer.mk 4 [mkMidiEvent MIDI_EVENT_PITCHBEND 1 3 0 8191])
                false 0)).
Proof.
  apply process_defined.
  - repeat constructor. unfold pitchbend_sum_fits, INT_MAX, ctrl_value.
    cbn. lia.
  - split.
    + intros n Hn. cbn in Hn.
      destruct n as [| [| n]]; [| | lia]; repeat constructor; eexists; reflexivity.
    + repeat constructor. eexists. reflexivity.
Defined.
